(** * Routing, topic identification and confidence estimation of the
      multi-agent real-estate chatbot

    A shallow embedding of [agent_router.py], [tenancy_faq_agent.py] and
    [issue_detection_agent.py].  Python [str] values are Rocq strings (the
    character operations [str.lower], [\s] and [\w] are those of the ASCII
    range), Python [int] is [Z], Python [float] is IEEE binary64
    ([PrimFloat]), a [dict] that is only looked up by key is a [gmap], a
    [dict] that is iterated is an association list in insertion order, and
    code that may raise returns a [result]. *)

From Stdlib Require Import ZArith Lia Ascii String Floats.
From stdpp Require Import base strings gmap list.

Set Warnings "-inexact-float".
Set Default Proof Using "Type".
Local Open Scope Z_scope.

(** ** Python values and exceptions *)

Inductive exn : Type :=
  | KeyError (key : string).

Inductive result (A : Type) : Type :=
  | Ok (a : A)
  | Raise (e : exn).
Arguments Ok {A} a.
Arguments Raise {A} e.

#[global] Instance result_ret : MRet result := fun A a => Ok a.
#[global] Instance result_bind : MBind result := fun A B k m =>
  match m with
  | Ok a => k a
  | Raise e => Raise e
  end.

(** The values stored in the conversation context: [last_agent] is a
    string, [topics] a list of strings. *)
Inductive pyval : Type :=
  | PyStr (s : string)
  | PyList (l : list string).

#[global] Instance pyval_eq_dec : EqDecision pyval.
Proof. solve_decision. Defined.

(** [d[key]] on a dictionary: raises [KeyError] when the key is absent. *)
Definition dict_getitem (d : gmap string pyval) (key : string) : result pyval :=
  match d !! key with
  | Some v => Ok v
  | None => Raise (KeyError key)
  end.

(** [key in d]. *)
Definition dict_contains (key : string) (d : gmap string pyval) : bool :=
  bool_decide (is_Some (d !! key)).

(** Truth value of an [Optional[Dict]]: [None] and the empty dictionary are
    false. *)
Definition dict_truthy (context : option (gmap string pyval)) : bool :=
  match context with
  | None => false
  | Some d => bool_decide (d ≠ ∅)
  end.

(** [sum(1 for x in xs if p x)]. *)
Fixpoint sum_ones {A : Type} (p : A -> bool) (xs : list A) : Z :=
  match xs with
  | [] => 0
  | x :: xs' => (if p x then 1 else 0) + sum_ones p xs'
  end.

(** [any(p x for x in xs)]. *)
Fixpoint any {A : Type} (p : A -> bool) (xs : list A) : bool :=
  match xs with
  | [] => false
  | x :: xs' => if p x then true else any p xs'
  end.

(** ** Python floats: the two-argument [max] and [min], and [int] to
       [float] conversion *)

(** [max(a, b)] keeps [a] unless [b > a]. *)
Definition py_max (a b : float) : float :=
  if PrimFloat.ltb a b then b else a.

(** [min(a, b)] keeps [a] unless [b < a]. *)
Definition py_min (a b : float) : float :=
  if PrimFloat.ltb b a then b else a.

(** [float(k)] for the small non-negative counts of this program. *)
Definition float_of_int (k : Z) : float := PrimFloat.of_uint63 (Uint63.of_Z k).

(** [a <= b] on floats. *)
Definition fle (a b : float) : Prop := PrimFloat.leb a b = true.

(** ** Dictionaries that are iterated: association lists in insertion
       order *)

Section OrderedDict.
Context {V : Type}.

(** [d.get(key)]. *)
Fixpoint od_get (d : list (string * V)) (key : string) : option V :=
  match d with
  | [] => None
  | (k, v) :: d' => if String.eqb k key then Some v else od_get d' key
  end.

(** [d[key] = v]: an existing key keeps its position. *)
Fixpoint od_set (d : list (string * V)) (key : string) (v : V)
    : list (string * V) :=
  match d with
  | [] => [(key, v)]
  | (k, w) :: d' =>
      if String.eqb k key then (k, v) :: d' else (k, w) :: od_set d' key v
  end.

(** [d[key]]. *)
Definition od_getitem (d : list (string * V)) (key : string) : result V :=
  match od_get d key with
  | Some v => Ok v
  | None => Raise (KeyError key)
  end.

(** The keys, in iteration order. *)
Definition od_keys (d : list (string * V)) : list string := fst <$> d.
End OrderedDict.

(** [max(best :: xs, key=key)]: an element replaces the current best only
    when its key is strictly greater, so the first element of greatest key
    is returned. *)
Fixpoint max_by {A : Type} (key : A -> Z) (best : A) (xs : list A) : A :=
  match xs with
  | [] => best
  | x :: xs' => if key x >? key best then max_by key x xs' else max_by key best xs'
  end.

(** [xs.sort(key=key, reverse=True)]: a stable sort into descending order,
    parameterised by the [<] of the keys. *)
Section SortReverse.
Context {A K : Type} (key : A -> K) (lt : K -> K -> bool).

Fixpoint insert_desc (x : A) (sorted : list A) : list A :=
  match sorted with
  | [] => [x]
  | y :: sorted' =>
      if lt (key x) (key y) then y :: insert_desc x sorted'
      else x :: y :: sorted'
  end.

Fixpoint sort_reverse (xs : list A) : list A :=
  match xs with
  | [] => []
  | x :: xs' => insert_desc x (sort_reverse xs')
  end.
End SortReverse.

(** ** Python strings *)

Module PyStr.

Definition is_upper (c : ascii) : bool :=
  (65 <=? nat_of_ascii c)%nat && (nat_of_ascii c <=? 90)%nat.

Definition lower_char (c : ascii) : ascii :=
  if is_upper c then ascii_of_nat (nat_of_ascii c + 32) else c.

(** [s.lower()]. *)
Fixpoint lower (s : string) : string :=
  match s with
  | EmptyString => EmptyString
  | String c s' => String (lower_char c) (lower s')
  end.

(** [text.startswith(kw)]. *)
Fixpoint startswith (kw text : string) : bool :=
  match kw, text with
  | EmptyString, _ => true
  | String _ _, EmptyString => false
  | String a kw', String b text' => Ascii.eqb a b && startswith kw' text'
  end.

(** [kw in text]: [kw] occurs at some position of [text]. *)
Fixpoint contains (kw text : string) : bool :=
  startswith kw text ||
  match text with
  | EmptyString => false
  | String _ text' => contains kw text'
  end.

(** [len(s)]. *)
Definition len (s : string) : Z := Z.of_nat (String.length s).

(** A string is in lower case when [lower] leaves it unchanged. *)
Definition is_lower (s : string) : Prop := lower s = s.

End PyStr.

(** ** Regular expressions of the [re] module, as far as the router uses
       them: literals, [\s], [\w], grouping, [?] and [+]. *)

Module Re.

Inductive charset : Type :=
  | Lit (c : ascii)
  | Space
  | Word.

Inductive regex : Type :=
  | Void
  | Eps
  | Chr (cs : charset)
  | Seq (r1 r2 : regex)
  | Alt (r1 r2 : regex)
  | Star (r : regex).

(** [\s] on the ASCII range: space, [\t\n\v\f\r] and the separators
    [\x1c]..[\x1f]. *)
Definition is_space (c : ascii) : bool :=
  let n := nat_of_ascii c in
  (n =? 32)%nat || ((9 <=? n)%nat && (n <=? 13)%nat)
  || ((28 <=? n)%nat && (n <=? 31)%nat).

(** [\w] on the ASCII range: letters, digits and the underscore. *)
Definition is_word (c : ascii) : bool :=
  let n := nat_of_ascii c in
  ((97 <=? n)%nat && (n <=? 122)%nat) || ((65 <=? n)%nat && (n <=? 90)%nat)
  || ((48 <=? n)%nat && (n <=? 57)%nat) || (n =? 95)%nat.

Definition in_charset (cs : charset) (c : ascii) : bool :=
  match cs with
  | Lit a => Ascii.eqb a c
  | Space => is_space c
  | Word => is_word c
  end.

(** [r?] and [r+]. *)
Definition opt (r : regex) : regex := Alt r Eps.
Definition plus (r : regex) : regex := Seq r (Star r).

(** A literal run of characters. *)
Fixpoint lit (s : string) : regex :=
  match s with
  | EmptyString => Eps
  | String c s' => Seq (Chr (Lit c)) (lit s')
  end.

(** Concatenation of the parts of a pattern. *)
Fixpoint cat (rs : list regex) : regex :=
  match rs with
  | [] => Eps
  | r :: rs' => Seq r (cat rs')
  end.

Fixpoint nullable (r : regex) : bool :=
  match r with
  | Void => false
  | Eps => true
  | Chr _ => false
  | Seq r1 r2 => nullable r1 && nullable r2
  | Alt r1 r2 => nullable r1 || nullable r2
  | Star _ => true
  end.

Fixpoint deriv (c : ascii) (r : regex) : regex :=
  match r with
  | Void => Void
  | Eps => Void
  | Chr cs => if in_charset cs c then Eps else Void
  | Seq r1 r2 =>
      if nullable r1 then Alt (Seq (deriv c r1) r2) (deriv c r2)
      else Seq (deriv c r1) r2
  | Alt r1 r2 => Alt (deriv c r1) (deriv c r2)
  | Star r1 => Seq (deriv c r1) (Star r1)
  end.

(** [re.match(r, text)]: some prefix of [text] is matched by [r]. *)
Fixpoint re_match (r : regex) (text : string) : bool :=
  nullable r ||
  match text with
  | EmptyString => false
  | String c text' => re_match (deriv c r) text'
  end.

(** [re.search(r, text)]: a match starts at some position of [text]. *)
Fixpoint search (r : regex) (text : string) : bool :=
  re_match r text ||
  match text with
  | EmptyString => false
  | String _ text' => search r text'
  end.

(** The words a regular expression denotes. *)
Inductive lang : regex -> string -> Prop :=
  | lang_eps : lang Eps EmptyString
  | lang_chr cs c :
      in_charset cs c = true -> lang (Chr cs) (String c EmptyString)
  | lang_seq r1 r2 s1 s2 :
      lang r1 s1 -> lang r2 s2 -> lang (Seq r1 r2) (s1 +:+ s2)
  | lang_alt_l r1 r2 s : lang r1 s -> lang (Alt r1 r2) s
  | lang_alt_r r1 r2 s : lang r2 s -> lang (Alt r1 r2) s
  | lang_star_nil r : lang (Star r) EmptyString
  | lang_star_app r s1 s2 :
      lang r s1 -> lang (Star r) s2 -> lang (Star r) (s1 +:+ s2).

End Re.

(** ** agent_router.py *)

Module AgentRouter.
Import PyStr Re.

Definition tenancy_keywords : list string :=
  [ "landlord"; "tenant"; "rent"; "deposit"; "evict"; "eviction"; "lease";
    "notice"; "rights"; "law"; "legal"; "contract"; "agreement"; "rental";
    "tenancy"; "move out"; "move in"; "security deposit"; "rent increase";
    "repair responsibility"; "maintenance"; "utilities"; "subletting";
    "termination"; "breach"; "violation"; "dispute"; "court" ].

Definition issue_keywords : list string :=
  [ "damage"; "broken"; "crack"; "leak"; "leaking"; "mold"; "mould";
    "repair"; "fix"; "problem"; "issue"; "maintenance"; "water damage";
    "electrical"; "plumbing"; "heating"; "cooling"; "hvac"; "paint";
    "ceiling"; "wall"; "floor"; "window"; "door"; "fixture"; "stain";
    "smell"; "odor"; "noise"; "insulation"; "ventilation" ].

Definition sp : regex := plus (Chr Space).

Definition tenancy_patterns : list regex :=
  [ (* can\s+(my\s+)?landlord *)
    cat [lit "can"; sp; opt (cat [lit "my"; sp]); lit "landlord"];
    (* tenant\s+rights? *)
    cat [lit "tenant"; sp; lit "right"; opt (lit "s")];
    (* rent\s+increase *)
    cat [lit "rent"; sp; lit "increase"];
    (* security\s+deposit *)
    cat [lit "security"; sp; lit "deposit"];
    (* evict(ion)? *)
    cat [lit "evict"; opt (lit "ion")];
    (* lease\s+agreement *)
    cat [lit "lease"; sp; lit "agreement"];
    (* notice\s+period *)
    cat [lit "notice"; sp; lit "period"];
    (* move\s+out *)
    cat [lit "move"; sp; lit "out"];
    (* terminate\s+lease *)
    cat [lit "terminate"; sp; lit "lease"] ].

Definition issue_patterns : list regex :=
  [ (* what\'?s\s+wrong\s+with *)
    cat [lit "what"; opt (lit "'"); lit "s"; sp; lit "wrong"; sp; lit "with"];
    (* fix\s+this *)
    cat [lit "fix"; sp; lit "this"];
    (* repair\s+needed *)
    cat [lit "repair"; sp; lit "needed"];
    (* damage\s+to *)
    cat [lit "damage"; sp; lit "to"];
    (* problem\s+with *)
    cat [lit "problem"; sp; lit "with"];
    (* issue\s+with *)
    cat [lit "issue"; sp; lit "with"];
    (* broken\s+\w+ *)
    cat [lit "broken"; sp; plus (Chr Word)];
    (* leak(ing)? *)
    cat [lit "leak"; opt (lit "ing")];
    (* crack\s+in *)
    cat [lit "crack"; sp; lit "in"] ].

(** [sum(1 for keyword in keywords if keyword in text_lower)]. *)
Definition keyword_score (keywords : list string) (text_lower : string) : Z :=
  sum_ones (fun keyword => contains keyword text_lower) keywords.

(** [for pattern in patterns: if re.search(pattern, text_lower): score += 2],
    started from [score]. *)
Fixpoint pattern_loop (patterns : list regex) (text_lower : string)
    (score : Z) : Z :=
  match patterns with
  | [] => score
  | pattern :: rest =>
      pattern_loop rest text_lower
        (if search pattern text_lower then score + 2 else score)
  end.

(** The two scores as they stand when the decision is taken. *)
Definition tenancy_score (text : string) : Z :=
  let text_lower := lower text in
  pattern_loop tenancy_patterns text_lower
    (keyword_score tenancy_keywords text_lower).

Definition issue_score (text : string) : Z :=
  let text_lower := lower text in
  pattern_loop issue_patterns text_lower
    (keyword_score issue_keywords text_lower).

Definition agent1 : pyval := PyStr "agent1".
Definition agent2 : pyval := PyStr "agent2".
Definition router : pyval := PyStr "router".

Definition route_request (text : string) (has_image : bool)
    (context : option (gmap string pyval)) : result pyval :=
  if has_image then Ok agent1
  else
    let tenancy_score := tenancy_score text in
    let issue_score := issue_score text in
    if (tenancy_score >? issue_score) && (tenancy_score >? 0) then Ok agent2
    else if (issue_score >? tenancy_score) && (issue_score >? 0) then Ok agent1
    else if (issue_score =? tenancy_score) && (issue_score >? 0) then
      match context with
      | Some d =>
          if dict_truthy context && dict_contains "last_agent" d
          then dict_getitem d "last_agent"
          else Ok router
      | None => Ok router
      end
    else Ok router.

End AgentRouter.

(** ** tenancy_faq_agent.py *)

Module TenancyFAQAgent.
Import PyStr.

(** An entry of [legal_database]; the remaining fields are response
    text. *)
Record topic_info : Type := { keywords : list string }.

Definition legal_database : list (string * topic_info) :=
  [ ("eviction",
      {| keywords := ["evict"; "eviction"; "kick out"; "remove";
                      "terminate lease"] |});
    ("rent_increase",
      {| keywords := ["rent increase"; "raise rent"; "rent hike";
                      "increase rent"] |});
    ("security_deposit",
      {| keywords := ["deposit"; "security deposit"; "last month";
                      "damage deposit"] |});
    ("repairs_maintenance",
      {| keywords := ["repair"; "maintenance"; "fix"; "broken";
                      "landlord responsibility"] |});
    ("lease_termination",
      {| keywords := ["move out"; "terminate lease"; "break lease";
                      "early termination"] |});
    ("tenant_rights",
      {| keywords := ["tenant rights"; "rights"; "what can landlord do";
                      "illegal"] |}) ].

(** The keys of [location_specific_notes]. *)
Definition location_specific_notes : list string :=
  ["california"; "new_york"; "texas"; "florida"].

Section WithDatabase.
Variable legal_database : list (string * topic_info).

(** The score of one topic in [_identify_topic]. *)
Definition topic_score (text_lower : string) (info : topic_info) : Z :=
  sum_ones (fun keyword => contains keyword text_lower) (keywords info).

(** The loop of [_identify_topic] filling [topic_scores]. *)
Fixpoint score_loop (items : list (string * topic_info))
    (text_lower : string) (topic_scores : list (string * Z))
    : list (string * Z) :=
  match items with
  | [] => topic_scores
  | (topic, info) :: rest =>
      let score := topic_score text_lower info in
      score_loop rest text_lower
        (if score >? 0 then od_set topic_scores topic score
         else topic_scores)
  end.

Definition _identify_topic (text : string) : option string :=
  let text_lower := lower text in
  let topic_scores := score_loop legal_database text_lower [] in
  match od_keys topic_scores with
  | [] => None
  | k :: ks =>
      Some (max_by (fun t => default 0 (od_get topic_scores t)) k ks)
  end.

(** The keyword count of [_calculate_confidence]. *)
Definition keyword_matches (text : string) (info : topic_info) : Z :=
  sum_ones (fun keyword => contains (lower keyword) (lower text))
    (keywords info).

(** The two adjustments of the base confidence and the final clamp. *)
Definition adjust (keyword_matches : Z) (location : option string)
    : float :=
  let base_confidence := 0.8%float in
  let base_confidence :=
    if keyword_matches >? 2 then (base_confidence + 0.1)%float
    else if keyword_matches =? 1 then (base_confidence - 0.1)%float
    else base_confidence in
  let base_confidence :=
    match location with
    | Some (String c loc) =>
        if any (fun l => contains l (lower (String c loc)))
             location_specific_notes
        then (base_confidence + 0.05)%float
        else base_confidence
    | _ => (base_confidence - 0.05)%float
    end in
  py_min 0.95 (py_max 0.6 base_confidence).

Definition _calculate_confidence (text topic : string)
    (location : option string) : result float :=
  topic_info ← od_getitem legal_database topic;
  mret (adjust (keyword_matches text topic_info) location).

(** [process_request]; the response text is represented by the topic it
    is generated for ([None] for the general guidance). *)
Definition process_request (text : string) (location : option string)
    : result (option string * float) :=
  match _identify_topic text with
  | Some (String c t) =>
      confidence ← _calculate_confidence text (String c t) location;
      mret (Some (String c t), confidence)
  | _ => mret (None, 0.6%float)
  end.
End WithDatabase.

End TenancyFAQAgent.

(** ** issue_detection_agent.py *)

Module IssueDetectionAgent.
Import PyStr.

(** An entry of [issue_database]; the remaining fields are response
    text. *)
Record issue_info : Type := { keywords : list string }.

Definition issue_database : list (string * issue_info) :=
  [ ("water_damage",
      {| keywords := ["water"; "leak"; "stain"; "wet"; "damp"; "moisture"] |});
    ("structural_damage",
      {| keywords := ["crack"; "hole"; "foundation"; "wall"; "ceiling"] |});
    ("mold_growth",
      {| keywords := ["mold"; "mould"; "fungus"; "black spots"; "green"] |});
    ("electrical_issues",
      {| keywords := ["electrical"; "outlet"; "switch"; "wiring"; "light"] |});
    ("plumbing_issues",
      {| keywords := ["pipe"; "drain"; "toilet"; "faucet"; "sink"] |});
    ("cosmetic_damage",
      {| keywords := ["paint"; "scratch"; "dent"; "scuff"; "wear"] |}) ].

(** ['minor'], ['moderate'] and ['severe']. *)
Inductive severity : Type := Minor | Moderate | Severe.

(** The dictionaries appended to [detected_issues] and to
    [possible_issues]. *)
Record detected_issue : Type := {
  type : string;
  confidence : float;
  det_severity : severity;
  keywords_matched : Z
}.

Record possible_issue : Type := {
  pos_type : string;
  matches : Z;
  pos_severity : severity
}.

Definition severe_indicators : list string :=
  ["extensive"; "large"; "major"; "severe"; "bad"; "terrible"; "everywhere"].

Definition moderate_indicators : list string :=
  ["noticeable"; "visible"; "concerning"; "growing"; "spreading"].

Definition _determine_severity (description issue_type : string) : severity :=
  if any (fun indicator => contains indicator description) severe_indicators
  then Severe
  else if any (fun indicator => contains indicator description)
            moderate_indicators
  then Moderate
  else Minor.

(** The detection confidence of one issue type in
    [_simulate_image_analysis]. *)
Definition detection_confidence (keyword_matches : Z) : float :=
  py_min 0.95 (0.6 + float_of_int keyword_matches * 0.1)%float.

Definition _calculate_confidence (detected_issues : list detected_issue)
    (description_length : Z) : float :=
  match detected_issues with
  | [] => 0.3%float
  | primary :: others =>
      let base_confidence := confidence primary in
      let base_confidence :=
        if description_length >? 50 then (base_confidence + 0.1)%float
        else if description_length <? 10 then (base_confidence - 0.1)%float
        else base_confidence in
      let base_confidence :=
        if Z.of_nat (length detected_issues) >? 1
        then (base_confidence + 0.05)%float
        else base_confidence in
      py_min 0.95 (py_max 0.5 base_confidence)
  end.

Section WithDatabase.
Variable issue_database : list (string * issue_info).

Definition keyword_matches (text_lower : string) (info : issue_info) : Z :=
  sum_ones (fun keyword => contains keyword text_lower) (keywords info).

(** The loop of [_simulate_image_analysis]; appending keeps table
    order. *)
Fixpoint detect_loop (items : list (string * issue_info))
    (description_lower : string) : list detected_issue :=
  match items with
  | [] => []
  | (issue_type, info) :: rest =>
      let keyword_matches := keyword_matches description_lower info in
      if keyword_matches >? 0 then
        {| type := issue_type;
           confidence := detection_confidence keyword_matches;
           det_severity := _determine_severity description_lower issue_type;
           keywords_matched := keyword_matches |}
        :: detect_loop rest description_lower
      else detect_loop rest description_lower
  end.

Definition _simulate_image_analysis (description : string)
    : list detected_issue :=
  let description_lower := lower description in
  let detected_issues := detect_loop issue_database description_lower in
  take 3 (sort_reverse confidence PrimFloat.ltb detected_issues).

(** The loop of [_analyze_text_description]. *)
Fixpoint possible_loop (items : list (string * issue_info))
    (text_lower : string) : list possible_issue :=
  match items with
  | [] => []
  | (issue_type, info) :: rest =>
      let keyword_matches := keyword_matches text_lower info in
      if keyword_matches >? 0 then
        {| pos_type := issue_type;
           matches := keyword_matches;
           pos_severity := _determine_severity text_lower issue_type |}
        :: possible_loop rest text_lower
      else possible_loop rest text_lower
  end.

(** The responses, represented by the data they are generated from. *)
Inductive response : Type :=
  | NoIssuesResponse
  | IssueAnalysisReport (detected_issues : list detected_issue)
  | TextAnalysisResponse (possible_issues : list possible_issue)
  | GeneralGuidanceResponse.

Definition _analyze_image_with_context (description : string)
    : response * float :=
  let detected_issues := _simulate_image_analysis description in
  match detected_issues with
  | [] => (NoIssuesResponse, 0.6%float)
  | _ :: _ =>
      (IssueAnalysisReport detected_issues,
       _calculate_confidence detected_issues (len description))
  end.

Definition _analyze_text_description (text : string) : response * float :=
  let text_lower := lower text in
  let possible_issues := possible_loop issue_database text_lower in
  match possible_issues with
  | [] => (GeneralGuidanceResponse, 0.5%float)
  | _ :: _ =>
      (TextAnalysisResponse (sort_reverse matches Z.ltb possible_issues),
       0.7%float)
  end.

(** [primary_issue = possible_issues[0]] in
    [_generate_text_analysis_response]: the issue type the text analysis
    names, if there is one. *)
Definition primary_type (r : response) : option string :=
  match r with
  | TextAnalysisResponse (primary :: _) => Some (pos_type primary)
  | _ => None
  end.

(** [process_request]; [has_image] is the truth value of
    [image_data]. *)
Definition process_request (text : string) (has_image : bool)
    : response * float :=
  if has_image then _analyze_image_with_context text
  else _analyze_text_description text.
End WithDatabase.

(** The severity classifier as the two analyses call it: on the
    lower-cased text. *)
Definition classify (text : string) : severity :=
  _determine_severity (lower text) "".

End IssueDetectionAgent.

(** * Properties *)

(** ** Strings *)

Module PyStrFacts.
Import PyStr.

Lemma app_cons c s t : String c s +:+ t = String c (s +:+ t).
Proof. reflexivity. Qed.

Lemma app_empty_l s : "" +:+ s = s.
Proof. reflexivity. Qed.

Lemma app_empty_r s : s +:+ "" = s.
Proof. induction s as [|c s IH]; [done|]. by rewrite app_cons, IH. Qed.

Lemma app_assoc s t u : (s +:+ t) +:+ u = s +:+ t +:+ u.
Proof. induction s as [|c s IH]; [done|]. by rewrite !app_cons, IH. Qed.

Lemma app_eq_empty s t : s +:+ t = "" -> s = "" /\ t = "".
Proof. destruct s; [done|]. by rewrite app_cons. Qed.

Lemma lower_app s t : lower (s +:+ t) = lower s +:+ lower t.
Proof.
  induction s as [|c s IH]; [done|].
  rewrite app_cons. simpl. by rewrite IH, app_cons.
Qed.

Lemma lower_char_idemp c : lower_char (lower_char c) = lower_char c.
Proof. by destruct c as [[] [] [] [] [] [] [] []]. Qed.

Lemma lower_idemp s : lower (lower s) = lower s.
Proof.
  induction s as [|c s IH]; [done|]. simpl. by rewrite lower_char_idemp, IH.
Qed.

Lemma lower_is_lower s : is_lower (lower s).
Proof. apply lower_idemp. Qed.

Lemma lower_length s : String.length (lower s) = String.length s.
Proof. induction s as [|c s IH]; [done|]. simpl. by rewrite IH. Qed.

Lemma startswith_spec kw text :
  startswith kw text = true <-> exists post, text = kw +:+ post.
Proof.
  revert text. induction kw as [|a kw IH]; intros text; simpl.
  - split; [intros _; by exists text | done].
  - destruct text as [|b text].
    + split; [done | intros [post H]; by rewrite app_cons in H].
    + rewrite andb_true_iff, Ascii.eqb_eq, IH. split.
      * intros [-> [post ->]]. by exists post.
      * intros [post H]. rewrite app_cons in H. injection H as -> ->. eauto.
Qed.

Lemma contains_spec kw text :
  contains kw text = true <-> exists pre post, text = pre +:+ kw +:+ post.
Proof.
  induction text as [|b text IH]; simpl.
  - rewrite orb_false_r, startswith_spec. split.
    + intros [post H]. by exists "", post.
    + intros (pre & post & H). symmetry in H.
      apply app_eq_empty in H as [_ H]. apply app_eq_empty in H as [-> ->].
      by exists "".
  - rewrite orb_true_iff, startswith_spec, IH. split.
    + intros [[post H] | (pre & post & H)].
      * by exists "", post.
      * exists (String b pre), post. by rewrite app_cons, H.
    + intros (pre & post & H). destruct pre as [|c pre].
      * left. by exists post.
      * right. rewrite app_cons in H. injection H as -> ->. eauto.
Qed.

(** A keyword found in a text is found in every text that extends it on
    either side. *)
Lemma contains_extend kw pre text post :
  contains kw text = true -> contains kw (pre +:+ text +:+ post) = true.
Proof.
  rewrite !contains_spec. intros (p & q & ->).
  exists (pre +:+ p), (q +:+ post). by rewrite !app_assoc.
Qed.

Lemma contains_empty_text kw : contains kw "" = true -> kw = "".
Proof.
  rewrite contains_spec. intros (pre & post & H). symmetry in H.
  apply app_eq_empty in H as [_ H]. by apply app_eq_empty in H as [-> _].
Qed.

Lemma contains_refl kw : contains kw kw = true.
Proof.
  apply contains_spec. exists "", "". by rewrite app_empty_l, app_empty_r.
Qed.

(** A keyword with an upper-case letter is never found in a lower-cased
    text. *)
Lemma contains_lower_is_lower kw text :
  contains kw (lower text) = true -> is_lower kw.
Proof.
  rewrite contains_spec. intros (pre & post & H).
  assert (Hl : lower (pre +:+ kw +:+ post) = pre +:+ kw +:+ post)
    by (rewrite <- H; apply lower_idemp).
  rewrite !lower_app in Hl.
  assert (Hlen : forall a b c d, a +:+ b = c +:+ d ->
             String.length a = String.length c -> a = c /\ b = d).
  { clear. induction a as [|x a IH]; intros b [|y c] d; simpl; try done.
    rewrite !app_cons. intros [= -> H] [= Hl].
    destruct (IH _ _ _ H Hl) as [-> ->]. done. }
  apply Hlen in Hl as [_ Hl]; [|apply lower_length].
  apply Hlen in Hl as [Hl _]; [done|apply lower_length].
Qed.
End PyStrFacts.

(** ** Regular expressions: the matcher finds exactly the words of the
       language *)

Module ReFacts.
Import PyStr Re PyStrFacts.

Lemma nullable_spec r : nullable r = true <-> lang r "".
Proof.
  split.
  - induction r as [| |cs|r1 IH1 r2 IH2|r1 IH1 r2 IH2|r IH]; simpl; intros H;
      try done.
    + constructor.
    + apply andb_true_iff in H as [H1 H2].
      change "" with ("" +:+ ""). constructor; auto.
    + apply orb_true_iff in H as [H|H];
        [apply lang_alt_l | apply lang_alt_r]; auto.
    + constructor.
  - remember "" as s eqn:Hs. intros H.
    induction H as [|cs c Hc|r1 r2 s1 s2 H1 IH1 H2 IH2|r1 r2 s H IH
                   |r1 r2 s H IH| |r s1 s2 H1 IH1 H2 IH2]; simpl; try done.
    + apply app_eq_empty in Hs as [-> ->]. by rewrite IH1, IH2.
    + by rewrite IH.
    + rewrite IH by done. apply orb_true_r.
Qed.

Lemma deriv_sound c r s : lang (deriv c r) s -> lang r (String c s).
Proof.
  revert s.
  induction r as [| |cs|r1 IH1 r2 IH2|r1 IH1 r2 IH2|r IH]; simpl; intros s H.
  - inversion H.
  - inversion H.
  - destruct (in_charset cs c) eqn:Hc; inversion H; subst. by constructor.
  - assert (Hseq : lang (Seq (deriv c r1) r2) s -> lang (Seq r1 r2) (String c s)).
    { intros Hs. inversion Hs; subst. rewrite <- app_cons. constructor; auto. }
    destruct (nullable r1) eqn:Hn; [|auto].
    inversion H; subst; [auto|].
    change (String c s) with ("" +:+ String c s).
    constructor; [by apply nullable_spec | auto].
  - inversion H; subst; [apply lang_alt_l | apply lang_alt_r]; auto.
  - inversion H; subst. rewrite <- app_cons. constructor; auto.
Qed.

Lemma deriv_complete c r s : lang r (String c s) -> lang (deriv c r) s.
Proof.
  remember (String c s) as w eqn:Hw. intros H. revert s Hw.
  induction H as [|cs c' Hc|r1 r2 s1 s2 H1 IH1 H2 IH2|r1 r2 w H IH
                 |r1 r2 w H IH| |r s1 s2 H1 IH1 H2 IH2]; intros s Hw; simpl.
  - done.
  - injection Hw as -> <-. rewrite Hc. constructor.
  - destruct s1 as [|a s1].
    + rewrite app_empty_l in Hw. apply nullable_spec in H1. rewrite H1.
      apply lang_alt_r. auto.
    + rewrite app_cons in Hw. injection Hw as -> <-.
      assert (lang (Seq (deriv c r1) r2) (s1 +:+ s2)) by (constructor; auto).
      destruct (nullable r1); [by apply lang_alt_l | done].
  - apply lang_alt_l. auto.
  - apply lang_alt_r. auto.
  - done.
  - destruct s1 as [|a s1].
    + rewrite app_empty_l in Hw. auto.
    + rewrite app_cons in Hw. injection Hw as -> <-. constructor; auto.
Qed.

Lemma re_match_spec r text :
  re_match r text = true <-> exists m post, text = m +:+ post /\ lang r m.
Proof.
  revert r. induction text as [|c text IH]; intros r; simpl.
  - rewrite orb_false_r, nullable_spec. split.
    + intros H. by exists "", "".
    + intros (m & post & Hm & H). symmetry in Hm.
      by apply app_eq_empty in Hm as [-> _].
  - rewrite orb_true_iff, nullable_spec, IH. split.
    + intros [H | (m & post & -> & H)].
      * by exists "", (String c text).
      * exists (String c m), post. split; [done | by apply deriv_sound].
    + intros (m & post & Hm & H). destruct m as [|a m]; [by left|right].
      rewrite app_cons in Hm. injection Hm as <- ->.
      exists m, post. split; [done | by apply deriv_complete].
Qed.

(** [re.search] succeeds exactly when some part of the text is a word of
    the pattern. *)
Lemma search_spec r text :
  search r text = true <->
  exists pre m post, text = pre +:+ m +:+ post /\ lang r m.
Proof.
  induction text as [|c text IH].
  - change (search r "") with (re_match r "" || false).
    rewrite orb_false_r, re_match_spec. split.
    + intros (m & post & -> & H). by exists "", m, post.
    + intros (pre & m & post & Hm & H). symmetry in Hm.
      apply app_eq_empty in Hm as [_ Hm]. exists m, post. done.
  - change (search r (String c text))
      with (re_match r (String c text) || search r text).
    rewrite orb_true_iff, re_match_spec, IH. split.
    + intros [(m & post & -> & H) | (pre & m & post & -> & H)].
      * by exists "", m, post.
      * by exists (String c pre), m, post.
    + intros (pre & m & post & Hm & H). destruct pre as [|a pre].
      * left. by exists m, post.
      * right. rewrite app_cons in Hm. injection Hm as <- ->. eauto.
Qed.

Lemma search_extend r pre text post :
  search r text = true -> search r (pre +:+ text +:+ post) = true.
Proof.
  rewrite !search_spec. intros (p & m & q & -> & H).
  exists (pre +:+ p), m, (q +:+ post). by rewrite !app_assoc.
Qed.

(** A pattern that does not match the empty word finds nothing in the
    empty text. *)
Lemma search_empty_text r : nullable r = false -> search r "" = false.
Proof. simpl. by intros ->. Qed.
End ReFacts.


(** ** Counting *)

(** Decide the integer comparisons of a goal by cases. *)
Ltac zcases :=
  rewrite ?Z.gtb_ltb in *;
  repeat match goal with
    | |- context [Z.ltb ?a ?b] => destruct (Z.ltb_spec a b)
    | |- context [Z.eqb ?a ?b] => destruct (Z.eqb_spec a b)
    end;
  simpl; try lia; try done.

Lemma sum_ones_nonneg {A} (p : A -> bool) xs : 0 <= sum_ones p xs.
Proof. induction xs as [|x xs IH]; simpl; [lia | destruct (p x); lia]. Qed.

Lemma sum_ones_le_length {A} (p : A -> bool) xs :
  sum_ones p xs <= Z.of_nat (length xs).
Proof. induction xs as [|x xs IH]; simpl; [lia | destruct (p x); lia]. Qed.

Lemma sum_ones_filter {A} (p : A -> bool) (P : A -> Prop)
    `{!forall x, Decision (P x)} xs :
  (forall x, x ∈ xs -> p x = true <-> P x) ->
  sum_ones p xs = Z.of_nat (length (filter P xs)).
Proof.
  induction xs as [|x xs IH]; intros Hp; [done|].
  simpl. rewrite filter_cons.
  rewrite IH by (intros y Hy; apply Hp; by right).
  specialize (Hp x (list_elem_of_here _ _)).
  destruct (decide (P x)) as [HP|HP], (p x) eqn:Hpx; simpl; try lia.
  - apply Hp in HP. done.
  - destruct HP. by apply Hp.
Qed.

Lemma sum_ones_mono {A} (p q : A -> bool) xs :
  (forall x, x ∈ xs -> p x = true -> q x = true) ->
  sum_ones p xs <= sum_ones q xs.
Proof.
  induction xs as [|x xs IH]; intros H; simpl; [lia|].
  assert (sum_ones p xs <= sum_ones q xs) by (apply IH; intros; apply H; [by right|done]).
  specialize (H x (list_elem_of_here _ _)).
  destruct (p x), (q x); lia.
Qed.

Lemma sum_ones_zero {A} (p : A -> bool) xs :
  sum_ones p xs = 0 <-> forall x, x ∈ xs -> p x = false.
Proof.
  induction xs as [|x xs IH]; simpl.
  - split; [intros _ x Hx; inversion Hx | done].
  - pose proof (sum_ones_nonneg p xs). split.
    + intros H0 y Hy. destruct (p x) eqn:Hpx; [lia|].
      apply elem_of_cons in Hy as [->|Hy]; [done|]. apply IH; [lia|done].
    + intros Hall. rewrite (Hall x) by left.
      rewrite (proj2 IH); [done|]. intros y Hy. apply Hall. by right.
Qed.

Lemma sum_ones_pos {A} (p : A -> bool) xs x :
  x ∈ xs -> p x = true -> 0 < sum_ones p xs.
Proof.
  intros Hx Hp. pose proof (sum_ones_nonneg p xs).
  destruct (decide (sum_ones p xs = 0)) as [H0|]; [|lia].
  rewrite sum_ones_zero in H0. rewrite (H0 x Hx) in Hp. done.
Qed.

(** ** The router *)

Module RouterSpec.
Import PyStr Re AgentRouter PyStrFacts ReFacts.

(** A keyword occurs in a text, letter case ignored: some part of the text
    and the keyword agree after lower-casing both. *)
Definition ci_occurs (kw text : string) : Prop :=
  exists pre m post, text = pre +:+ m +:+ post /\ lower m = lower kw.

(** A pattern finds a match in a text: some part of the text is a word of
    the pattern. *)
Definition finds_match (r : regex) (text : string) : Prop :=
  exists pre m post, text = pre +:+ m +:+ post /\ lang r m.

(** [context.last_agent], when the context is present and has the key. *)
Definition last_agent (context : option (gmap string pyval)) : option pyval :=
  d ← context; d !! "last_agent".

(** Where a decision stands between the two specialists: the tenancy
    agent, anything else (the clarifying router), the issue agent. *)
Definition rank (decision : pyval) : Z :=
  if decide (decision = agent1) then 2
  else if decide (decision = agent2) then 0
  else 1.

(** The decision stays, or moves toward the issue agent. *)
Definition toward_issue (before after : pyval) : Prop :=
  after = before \/ rank before < rank after.

Lemma lower_split t a b :
  lower t = a +:+ b -> exists t1 t2, t = t1 +:+ t2 /\ lower t1 = a /\ lower t2 = b.
Proof.
  revert t. induction a as [|x a IH]; intros t H.
  - by exists "", t.
  - destruct t as [|y t]; [done|]. rewrite app_cons in H. simpl in H.
    injection H as Hx H. destruct (IH _ H) as (t1 & t2 & -> & <- & <-).
    exists (String y t1), t2. simpl. by rewrite Hx.
Qed.

Lemma ci_occurs_contains kw text :
  contains (lower kw) (lower text) = true <-> ci_occurs kw text.
Proof.
  rewrite contains_spec. split.
  - intros (a & b & H). apply lower_split in H as (pre & t & -> & <- & H).
    apply lower_split in H as (m & post & -> & Hm & <-). by exists pre, m, post.
  - intros (pre & m & post & -> & Hm).
    exists (lower pre), (lower post). by rewrite !lower_app, Hm.
Qed.

#[global] Instance ci_occurs_dec kw text : Decision (ci_occurs kw text).
Proof.
  refine (cast_if (decide (contains (lower kw) (lower text) = true)));
    by rewrite <- ci_occurs_contains.
Defined.

#[global] Instance finds_match_dec r text : Decision (finds_match r text).
Proof.
  refine (cast_if (decide (search r text = true)));
    unfold finds_match; by rewrite <- search_spec.
Defined.

End RouterSpec.

Module RouterFacts.
Import PyStr Re AgentRouter PyStrFacts ReFacts RouterSpec.

(** The number of patterns that find a match, as an integer. *)
Definition matching (patterns : list regex) (text : string) : Z :=
  Z.of_nat (length (filter (fun p => finds_match p text) patterns)).

(** The number of keywords that occur in the text, letter case ignored. *)
Definition occurring (keywords : list string) (text : string) : Z :=
  Z.of_nat (length (filter (fun kw => ci_occurs kw text) keywords)).

Lemma pattern_loop_sum patterns text score :
  pattern_loop patterns text score =
  score + 2 * sum_ones (fun p => search p text) patterns.
Proof.
  revert score. induction patterns as [|p ps IH]; intros score; simpl; [lia|].
  rewrite IH. destruct (search p text); lia.
Qed.

Lemma pattern_loop_eq patterns text score :
  pattern_loop patterns text score = score + 2 * matching patterns text.
Proof.
  unfold matching. rewrite <- (sum_ones_filter (fun p => search p text))
    by (intros p _; apply search_spec).
  apply pattern_loop_sum.
Qed.

Lemma keyword_score_eq keywords text :
  Forall is_lower keywords ->
  keyword_score keywords (lower text) = occurring keywords text.
Proof.
  intros Hl. apply sum_ones_filter. intros kw Hkw.
  rewrite <- ci_occurs_contains.
  rewrite Forall_forall in Hl. by rewrite (Hl kw Hkw).
Qed.

Lemma tenancy_keywords_lower : Forall is_lower tenancy_keywords.
Proof. repeat constructor. Qed.

Lemma issue_keywords_lower : Forall is_lower issue_keywords.
Proof. repeat constructor. Qed.

Lemma issue_score_eq text :
  issue_score text =
  occurring issue_keywords text + 2 * matching issue_patterns (lower text).
Proof.
  unfold issue_score.
  by rewrite pattern_loop_eq, keyword_score_eq by apply issue_keywords_lower.
Qed.

Lemma tenancy_score_eq text :
  tenancy_score text =
  occurring tenancy_keywords text + 2 * matching tenancy_patterns (lower text).
Proof.
  unfold tenancy_score.
  by rewrite pattern_loop_eq, keyword_score_eq by apply tenancy_keywords_lower.
Qed.

Lemma issue_score_nonneg text : 0 <= issue_score text.
Proof. rewrite issue_score_eq. unfold occurring, matching. lia. Qed.

Lemma tenancy_score_nonneg text : 0 <= tenancy_score text.
Proof. rewrite tenancy_score_eq. unfold occurring, matching. lia. Qed.

(** The sticky branch: the guard makes the dictionary access safe. *)
Lemma sticky_branch d :
  (if dict_truthy (Some d) && dict_contains "last_agent" d
   then dict_getitem d "last_agent" else Ok router)
  = Ok (default router (last_agent (Some d))).
Proof.
  unfold dict_truthy, dict_contains, dict_getitem, last_agent. simpl.
  destruct (d !! "last_agent") as [v|] eqn:Hd.
  - rewrite bool_decide_eq_true_2, bool_decide_eq_true_2; [done|eauto|].
    intros ->. by rewrite lookup_empty in Hd.
  - rewrite (bool_decide_eq_false_2 (is_Some None)) by (by intros [? ?]).
    by rewrite andb_false_r.
Qed.

(** The decision of [route_request] without an image, as a function of the
    two scores. *)
Lemma route_request_text text context :
  route_request text false context =
  Ok (if tenancy_score text >? issue_score text then agent2
      else if issue_score text >? tenancy_score text then agent1
      else if issue_score text >? 0 then default router (last_agent context)
      else router).
Proof.
  pose proof (issue_score_nonneg text). pose proof (tenancy_score_nonneg text).
  unfold route_request.
  destruct context as [d|]; [rewrite sticky_branch|]; zcases.
Qed.

(** C1: without an image, [route_request] applies the four-branch rule to
    the two scores, each of which is the number of keywords found plus two
    for every pattern that matches: the tenancy agent when the tenancy
    score is the larger one, the issue agent when the issue score is the
    larger one, the context's [last_agent] (the router when there is none)
    on a tie above zero, and the router when both scores are zero. *)
Theorem route_request_four_branches text context :
  issue_score text =
    occurring issue_keywords text + 2 * matching issue_patterns (lower text)
  /\ tenancy_score text =
    occurring tenancy_keywords text + 2 * matching tenancy_patterns (lower text)
  /\ (tenancy_score text > issue_score text -> tenancy_score text > 0 ->
      route_request text false context = Ok agent2)
  /\ (issue_score text > tenancy_score text -> issue_score text > 0 ->
      route_request text false context = Ok agent1)
  /\ (issue_score text = tenancy_score text -> issue_score text > 0 ->
      forall v, last_agent context = Some v ->
      route_request text false context = Ok v)
  /\ (issue_score text = tenancy_score text -> issue_score text > 0 ->
      last_agent context = None ->
      route_request text false context = Ok router)
  /\ (issue_score text = 0 -> tenancy_score text = 0 ->
      route_request text false context = Ok router).
Proof.
  split; [apply issue_score_eq|]. split; [apply tenancy_score_eq|].
  rewrite route_request_text.
  repeat split; intros; repeat match goal with H : last_agent _ = _ |- _ =>
    rewrite H; clear H end; zcases.
Qed.

(** C2: with an image, [route_request] answers with the issue agent,
    whatever the text and the context are. *)
Theorem route_request_image text context :
  route_request text true context = Ok agent1.
Proof. reflexivity. Qed.

(** C9: [route_request] always returns a value; without a [last_agent] in
    the context (no context, an empty one, or one without the key) a tie of
    the scores is answered by the router, and so is the absence of any
    signal. *)
Theorem route_request_never_raises text has_image context :
  (exists v, route_request text has_image context = Ok v)
  /\ (issue_score text = tenancy_score text ->
      (context = None \/
       exists d, context = Some d /\ d !! "last_agent" = None) ->
      route_request text false context = Ok router)
  /\ (issue_score text = 0 -> tenancy_score text = 0 ->
      route_request text false context = Ok router).
Proof.
  split; [|split].
  - destruct has_image; [by exists agent1|].
    rewrite route_request_text. eauto.
  - intros Htie Hctx. rewrite route_request_text.
    assert (last_agent context = None) as ->
      by (destruct Hctx as [->|(d & -> & Hd)]; done).
    zcases.
  - intros. rewrite route_request_text. zcases.
Qed.

(** C3, as stated, fails on keyword lists the router does not have: a
    keyword with a capital letter is compared as it is with the lower-cased
    text and is never found, and the empty keyword is found in the empty
    text. *)
Lemma keyword_score_counterexample :
  occurring ["Rent"] "rent" = 1
  /\ keyword_score ["Rent"] (lower "rent") = 0
  /\ keyword_score [""] (lower "") = 1.
Proof. by vm_compute. Qed.

(** A keyword occurs, as it is written, in a string. *)
Definition occurs (kw s : string) : Prop :=
  exists pre post, s = pre +:+ kw +:+ post.

#[global] Instance occurs_dec kw s : Decision (occurs kw s).
Proof.
  refine (cast_if (decide (contains kw s = true)));
    unfold occurs; by rewrite <- contains_spec.
Defined.

(** The number of keywords that occur, as they are written, in a string. *)
Definition found (keywords : list string) (s : string) : Z :=
  Z.of_nat (length (filter (fun kw => occurs kw s) keywords)).

(** The characters of a string are ASCII characters (codes below 128), the
    range on which [lower] is Python's [str.lower]. *)
Fixpoint all_ascii (s : string) : bool :=
  match s with
  | EmptyString => true
  | String c s' => (nat_of_ascii c <? 128)%nat && all_ascii s'
  end.

Definition ascii_text (s : string) : Prop := all_ascii s = true.

Lemma keyword_score_found keywords s : keyword_score keywords s = found keywords s.
Proof. apply sum_ones_filter. intros kw _. apply contains_spec. Qed.

Lemma tenancy_keywords_ascii : Forall ascii_text tenancy_keywords.
Proof. repeat constructor. Qed.

Lemma issue_keywords_ascii : Forall ascii_text issue_keywords.
Proof. repeat constructor. Qed.

(** C3, amended: for every text and keyword list the keyword score is the
    number of keywords that occur, as they are written, in the lower-cased
    text, each counted once however often it repeats; for an ASCII text and
    ASCII keywords written in lower case (as all keywords of the router are)
    this is the number of keywords that occur in the text, letter case
    ignored.  The pattern loop adds exactly two for every pattern that finds
    a match in the lower-cased text; and the empty text scores zero on
    keywords that are not empty and on patterns that do not match the empty
    string, so that both scores of the router are zero on the empty text. *)
Theorem keyword_and_pattern_scores text keywords patterns score :
  keyword_score keywords (lower text) = found keywords (lower text)
  /\ (ascii_text text -> Forall ascii_text keywords ->
      Forall is_lower keywords ->
      keyword_score keywords (lower text) = occurring keywords text)
  /\ pattern_loop patterns (lower text) score
     = score + 2 * matching patterns (lower text)
  /\ (Forall (fun kw => kw <> "") keywords ->
      keyword_score keywords (lower "") = 0)
  /\ (Forall (fun p => ~ finds_match p "") patterns ->
      pattern_loop patterns (lower "") 0 = 0)
  /\ issue_score "" = 0 /\ tenancy_score "" = 0.
Proof.
  split; [apply keyword_score_found|].
  split; [intros _ _; apply keyword_score_eq|]. split; [apply pattern_loop_eq|].
  split; [|split; [|by vm_compute]].
  - rewrite Forall_forall. intros Hne. apply sum_ones_zero. intros kw Hkw.
    destruct (contains kw (lower "")) eqn:Hc; [|done].
    apply contains_empty_text in Hc. by destruct (Hne kw Hkw).
  - rewrite Forall_forall. intros Hne. rewrite pattern_loop_sum.
    rewrite (proj2 (sum_ones_zero _ _)); [done|]. intros p Hp.
    destruct (search p (lower "")) eqn:Hs; [|done].
    apply search_spec in Hs. by destruct (Hne p Hp).
Qed.

(** The amended C3 at the router's own issue tables and an ASCII text that
    repeats a keyword in three spellings. *)
Lemma keyword_and_pattern_scores_witness :
  keyword_score issue_keywords (lower "Mold, MOLD and mold")
    = occurring issue_keywords "Mold, MOLD and mold"
  /\ occurring issue_keywords "Mold, MOLD and mold" = 1
  /\ found issue_keywords (lower "Mold, MOLD and mold") = 1
  /\ pattern_loop issue_patterns (lower "a leak, leaking") 0 = 2.
Proof.
  destruct (keyword_and_pattern_scores "Mold, MOLD and mold" issue_keywords [] 0)
    as (_ & Hk & _).
  destruct (keyword_and_pattern_scores "a leak, leaking" [] issue_patterns 0)
    as (_ & _ & Hp & _).
  split; [|split; [|split]].
  - apply Hk; [reflexivity | apply issue_keywords_ascii
                | apply issue_keywords_lower].
  - by vm_compute.
  - by vm_compute.
  - rewrite Hp. by vm_compute.
Defined.

Lemma keyword_score_extend keywords pre text post :
  keyword_score keywords (lower text)
  <= keyword_score keywords (lower (pre +:+ text +:+ post)).
Proof.
  apply sum_ones_mono. intros kw _. rewrite !lower_app. apply contains_extend.
Qed.

Lemma pattern_loop_extend patterns pre text post s1 s2 :
  s1 <= s2 ->
  pattern_loop patterns (lower text) s1
  <= pattern_loop patterns (lower (pre +:+ text +:+ post)) s2.
Proof.
  intros Hs. rewrite !pattern_loop_sum.
  assert (sum_ones (fun p => search p (lower text)) patterns
          <= sum_ones (fun p => search p (lower (pre +:+ text +:+ post))) patterns);
    [|lia].
  apply sum_ones_mono. intros p _. rewrite !lower_app. apply search_extend.
Qed.

Lemma issue_score_extend pre text post :
  issue_score text <= issue_score (pre +:+ text +:+ post).
Proof. apply pattern_loop_extend, keyword_score_extend. Qed.

Lemma tenancy_score_extend pre text post :
  tenancy_score text <= tenancy_score (pre +:+ text +:+ post).
Proof. apply pattern_loop_extend, keyword_score_extend. Qed.

(** C6, as stated, fails: "maintenance" is an issue keyword and a tenancy
    keyword, so adding it to a text without any signal produces a tie, which
    a context whose last agent is the tenancy agent turns into the tenancy
    agent: the decision moves from the router away from the issue agent.
    And an occurrence added inside a text can break the keywords that were
    there: "mold" put in the middle of "leak" lowers the issue score from 3
    to 1. *)
Lemma issue_keyword_counterexample :
  "maintenance" ∈ issue_keywords
  /\ contains "maintenance" (lower "hello") = false
  /\ issue_score "hello" = 0 /\ issue_score "hello maintenance" = 1
  /\ route_request "hello" false (Some {[ "last_agent" := agent2 ]})
     = Ok router
  /\ route_request ("hello" +:+ " maintenance") false
       (Some {[ "last_agent" := agent2 ]}) = Ok agent2
  /\ ~ toward_issue router agent2
  /\ "mold" ∈ issue_keywords
  /\ issue_score "leak" = 3 /\ issue_score ("le" +:+ "mold" +:+ "ak") = 1.
Proof.
  split; [apply (bool_decide_unpack _); by vm_compute|].
  repeat (split; [by vm_compute|]).
  split; [intros [H|H]; [done | by vm_compute in H]|].
  split; [apply (bool_decide_unpack _); by vm_compute|].
  split; by vm_compute.
Qed.

(** C6, amended: extending a text at either end, as adding an occurrence
    of an issue keyword there does, never lowers the issue score (nor the
    tenancy score); and when the addition leaves the tenancy score as it
    was, the decision without an image and under the same context stays or
    moves toward the issue agent. *)
Theorem issue_keyword_monotone text pre post context :
  issue_score text <= issue_score (pre +:+ text +:+ post)
  /\ tenancy_score text <= tenancy_score (pre +:+ text +:+ post)
  /\ (tenancy_score (pre +:+ text +:+ post) = tenancy_score text ->
      forall before after,
        route_request text false context = Ok before ->
        route_request (pre +:+ text +:+ post) false context = Ok after ->
        toward_issue before after).
Proof.
  split; [apply issue_score_extend|]. split; [apply tenancy_score_extend|].
  intros Ht before after. rewrite !route_request_text, Ht.
  pose proof (issue_score_extend pre text post) as Hi.
  pose proof (issue_score_nonneg text).
  intros [= <-] [= <-]. unfold toward_issue, rank.
  zcases; repeat case_decide; simplify_eq; auto with lia.
Qed.

(** The amended C6 where a new issue keyword is appended to a tenancy
    question: the tie that results is answered by the router. *)
Lemma issue_keyword_monotone_witness :
  toward_issue agent2 router.
Proof.
  destruct (issue_keyword_monotone "my rent" "" " and mold" None)
    as (_ & _ & H).
  apply H; by vm_compute.
Defined.

End RouterFacts.

(** ** The first element with the greatest key *)

Section FirstMax.
Context {A : Type} (key : A -> Z).

(** [m] stands in [xs] after elements of smaller key only, and before
    elements of smaller or equal key only. *)
Definition is_first_max (xs : list A) (m : A) : Prop :=
  exists pre post, xs = pre ++ m :: post
    /\ (forall y, y ∈ pre -> key y < key m)
    /\ (forall y, y ∈ post -> key y <= key m).

Lemma is_first_max_bound xs m y : is_first_max xs m -> y ∈ xs -> key y <= key m.
Proof.
  intros (pre & post & -> & Hpre & Hpost) Hy.
  apply elem_of_app in Hy as [Hy|Hy]; [specialize (Hpre y Hy); lia|].
  apply elem_of_cons in Hy as [->|Hy]; [lia | auto].
Qed.

Lemma is_first_max_unique xs m1 m2 :
  is_first_max xs m1 -> is_first_max xs m2 -> m1 = m2.
Proof.
  intros (pre1 & post1 & E1 & Hpre1 & Hpost1) (pre2 & post2 & E2 & Hpre2 & Hpost2).
  rewrite E1 in E2. apply app_eq_inv in E2 as [(k & Ek & Hk)|(k & Ek & Hk)];
    (destruct k as [|z k]; simpl in Hk; [by injection Hk|]);
    injection Hk as Hz Hpost.
  - assert (key m2 < key m1)
      by (apply Hpre1; rewrite Ek, Hz; set_solver).
    assert (key m1 <= key m2) by (apply Hpost2; rewrite Hpost; set_solver). lia.
  - assert (key m1 < key m2)
      by (apply Hpre2; rewrite Ek, Hz; set_solver).
    assert (key m2 <= key m1) by (apply Hpost1; rewrite Hpost; set_solver). lia.
Qed.

Lemma max_by_first_max best xs :
  is_first_max (best :: xs) (max_by key best xs).
Proof.
  revert best. induction xs as [|x xs IH]; intros best; simpl.
  - exists [], []. set_solver.
  - rewrite Z.gtb_ltb. destruct (Z.ltb_spec (key best) (key x)) as [Hlt|Hle].
    + pose proof (IH x) as Hm.
      pose proof (is_first_max_bound _ _ x Hm (list_elem_of_here _ _)).
      destruct Hm as (pre & post & Heq & Hpre & Hpost).
      exists (best :: pre), post. rewrite Heq. split; [done|]. split; [|done].
      intros y [->|Hy]%elem_of_cons; [lia | auto].
    + destruct (IH best) as (pre & post & Heq & Hpre & Hpost).
      remember (max_by key best xs) as m eqn:Hm. clear Hm IH.
      destruct pre as [|b pre]; simpl in Heq; injection Heq as -> Hxs.
      * exists [], (x :: xs). split; [done|]. split; [set_solver|].
        intros y [->|Hy]%elem_of_cons; [lia|]. apply Hpost. by rewrite <- Hxs.
      * exists (b :: x :: pre), post. rewrite Hxs. split; [done|].
        split; [|done].
        assert (key b < key m) by (apply Hpre; left).
        intros y [->|[->|Hy]%elem_of_cons]%elem_of_cons;
          [done | lia | apply Hpre; by right].
Qed.

Lemma insert_desc_nonempty x sorted : insert_desc key Z.ltb x sorted <> [].
Proof. destruct sorted; simpl; [done | by case_match]. Qed.

Lemma sort_reverse_nil xs : sort_reverse key Z.ltb xs = [] -> xs = [].
Proof.
  destruct xs as [|x xs]; [done|]. simpl. intros H.
  by apply insert_desc_nonempty in H.
Qed.

Lemma sort_reverse_head xs m rest :
  sort_reverse key Z.ltb xs = m :: rest -> is_first_max xs m.
Proof.
  revert m rest. induction xs as [|x xs IH]; intros m rest; simpl; [done|].
  destruct (sort_reverse key Z.ltb xs) as [|y sorted] eqn:Hs; simpl.
  - apply sort_reverse_nil in Hs as ->. intros [= <- _].
    exists [], []. set_solver.
  - specialize (IH y sorted eq_refl).
    destruct (Z.ltb_spec (key x) (key y)) as [Hlt|Hle]; intros [= <- _].
    + destruct IH as (pre & post & -> & Hpre & Hpost).
      exists (x :: pre), post. split; [done|]. split; [|done].
      intros z [->|Hz]%elem_of_cons; [done | auto].
    + exists [], xs. split; [done|]. split; [set_solver|].
      intros z Hz. pose proof (is_first_max_bound _ _ z IH Hz). lia.
Qed.
End FirstMax.

(** ** Selecting the entries of positive score *)

Section Positive.
Context {E B : Type} (score : E -> Z) (key : B -> Z) (g : E -> option B).
Hypothesis g_some : forall e b, g e = Some b -> key b = score e /\ 0 < score e.
Hypothesis g_none : forall e, g e = None -> score e <= 0.

Lemma omap_split db pre m post :
  omap g db = pre ++ m :: post ->
  exists dpre e dpost, db = dpre ++ e :: dpost
    /\ omap g dpre = pre /\ g e = Some m /\ omap g dpost = post.
Proof.
  revert pre. induction db as [|a db IH]; intros pre H; simpl in H.
  - by destruct pre.
  - destruct (g a) as [b|] eqn:Ha.
    + destruct pre as [|p pre]; simpl in H; injection H as -> H.
      * exists [], a, db. by rewrite <- H.
      * destruct (IH _ H) as (dpre & e & dpost & -> & <- & He & <-).
        exists (a :: dpre), e, dpost. simpl. by rewrite Ha.
    + destruct (IH _ H) as (dpre & e & dpost & -> & <- & He & <-).
      exists (a :: dpre), e, dpost. simpl. by rewrite Ha.
Qed.

Lemma first_max_omap db m :
  is_first_max key (omap g db) m ->
  exists e, g e = Some m /\ 0 < score e /\ is_first_max score db e.
Proof using g_some g_none.
  intros (pre & post & H & Hpre & Hpost).
  apply omap_split in H as (dpre & e & dpost & -> & <- & He & <-).
  destruct (g_some _ _ He) as [Hk Hpos].
  exists e. split; [done|]. split; [done|].
  exists dpre, dpost. split; [done|].
  split; intros y Hy; destruct (g y) as [b|] eqn:Hgy.
  - destruct (g_some _ _ Hgy) as [<- _]. rewrite <- Hk. apply Hpre.
    apply list_elem_of_omap. eauto.
  - specialize (g_none _ Hgy). lia.
  - destruct (g_some _ _ Hgy) as [<- _]. rewrite <- Hk. apply Hpost.
    apply list_elem_of_omap. eauto.
  - specialize (g_none _ Hgy). lia.
Qed.

Lemma omap_nil_iff db : omap g db = [] <-> forall e, e ∈ db -> score e <= 0.
Proof using g_some g_none.
  induction db as [|a db IH]; simpl.
  - split; [intros _ e He; inversion He | done].
  - destruct (g a) as [b|] eqn:Ha.
    + split; [done|]. intros H. destruct (g_some _ _ Ha) as [_ Hpos].
      specialize (H a (list_elem_of_here _ _)). lia.
    + rewrite IH. split.
      * intros H e [->|He]%elem_of_cons; auto.
      * intros H e He. apply H. by right.
Qed.
End Positive.

(** ** Ordered dictionaries *)

Section OrderedDictFacts.
Context {V : Type}.
Implicit Types d : list (string * V).

Lemma od_set_fresh d key v :
  key ∉ od_keys d -> od_set d key v = d ++ [(key, v)].
Proof.
  induction d as [|[k w] d IH]; intros Hk; simpl; [done|].
  unfold od_keys in Hk. rewrite fmap_cons, not_elem_of_cons in Hk.
  destruct Hk as [Hne Hk]. simpl in Hne.
  destruct (String.eqb_spec k key); [done|]. by rewrite IH.
Qed.

Lemma od_get_NoDup d key v :
  NoDup (od_keys d) -> (key, v) ∈ d -> od_get d key = Some v.
Proof.
  induction d as [|[k w] d IH]; intros Hnd Hin; [inversion Hin|].
  unfold od_keys in Hnd. rewrite fmap_cons, NoDup_cons in Hnd.
  destruct Hnd as [Hk Hnd]. simpl in *.
  apply elem_of_cons in Hin as [[= -> ->]|Hin].
  - by rewrite String.eqb_refl.
  - destruct (String.eqb_spec k key) as [->|]; [|by apply IH].
    destruct Hk. apply list_elem_of_fmap. by exists (key, v).
Qed.
End OrderedDictFacts.

(** ** Topic identification *)

Module TopicFacts.
Import PyStr PyStrFacts.
Module T := TenancyFAQAgent.
Module I := IssueDetectionAgent.

(** An entry of positive score that is the first of the table to reach the
    greatest score. *)
Definition best_entry {E : Type} (score : E -> Z) (db : list E) (e : E) : Prop :=
  0 < score e /\ is_first_max score db e.

Lemma best_entry_unique {E} (score : E -> Z) db e1 e2 :
  best_entry score db e1 -> best_entry score db e2 -> e1 = e2.
Proof. intros [_ H1] [_ H2]. by eapply is_first_max_unique. Qed.

(** What the loop of [_identify_topic] records for a table entry. *)
Definition t_pos (text_lower : string) (e : string * T.topic_info)
    : option (string * Z) :=
  let score := T.topic_score text_lower e.2 in
  if score >? 0 then Some (e.1, score) else None.

(** What the loop of [_analyze_text_description] records for a table
    entry. *)
Definition i_pos (text_lower : string) (e : string * I.issue_info)
    : option I.possible_issue :=
  let keyword_matches := I.keyword_matches text_lower e.2 in
  if keyword_matches >? 0 then
    Some {| I.pos_type := e.1; I.matches := keyword_matches;
            I.pos_severity := I._determine_severity text_lower e.1 |}
  else None.

Lemma t_pos_some tl e b :
  t_pos tl e = Some b -> b.2 = T.topic_score tl e.2 /\ 0 < T.topic_score tl e.2.
Proof.
  unfold t_pos. rewrite Z.gtb_ltb.
  destruct (Z.ltb_spec 0 (T.topic_score tl e.2)); [|done]. by intros [= <-].
Qed.

Lemma t_pos_none tl e : t_pos tl e = None -> T.topic_score tl e.2 <= 0.
Proof.
  unfold t_pos. rewrite Z.gtb_ltb.
  by destruct (Z.ltb_spec 0 (T.topic_score tl e.2)).
Qed.

Lemma t_pos_key tl e b : t_pos tl e = Some b -> b.1 = e.1.
Proof. unfold t_pos. case_match; [|done]. by intros [= <-]. Qed.

Lemma i_pos_some tl e b :
  i_pos tl e = Some b ->
  I.matches b = I.keyword_matches tl e.2 /\ 0 < I.keyword_matches tl e.2.
Proof.
  unfold i_pos. rewrite Z.gtb_ltb.
  destruct (Z.ltb_spec 0 (I.keyword_matches tl e.2)); [|done]. by intros [= <-].
Qed.

Lemma i_pos_none tl e : i_pos tl e = None -> I.keyword_matches tl e.2 <= 0.
Proof.
  unfold i_pos. rewrite Z.gtb_ltb.
  by destruct (Z.ltb_spec 0 (I.keyword_matches tl e.2)).
Qed.

Lemma keys_omap tl items k :
  k ∈ od_keys (omap (t_pos tl) items) -> k ∈ od_keys items.
Proof.
  unfold od_keys. rewrite !list_elem_of_fmap.
  intros (b & -> & Hb). apply list_elem_of_omap in Hb as (e & He & Hp).
  exists e. by rewrite (t_pos_key _ _ _ Hp).
Qed.

Lemma NoDup_keys_omap tl items :
  NoDup (od_keys items) -> NoDup (od_keys (omap (t_pos tl) items)).
Proof.
  induction items as [|e items IH]; [done|].
  unfold od_keys in *. rewrite fmap_cons, NoDup_cons. intros [Hk Hnd]. simpl.
  destruct (t_pos tl e) as [b|] eqn:Hb; [|auto].
  rewrite fmap_cons, NoDup_cons. split; [|auto].
  rewrite (t_pos_key _ _ _ Hb). intros Hin. by apply Hk, (keys_omap tl).
Qed.

Lemma score_loop_omap items tl ts :
  NoDup (od_keys items) ->
  (forall k, k ∈ od_keys ts -> k ∉ od_keys items) ->
  T.score_loop items tl ts = ts ++ omap (t_pos tl) items.
Proof.
  revert ts. induction items as [|[topic info] items IH]; intros ts Hnd Hdis.
  - simpl. by rewrite app_nil_r.
  - unfold od_keys in Hnd. rewrite fmap_cons, NoDup_cons in Hnd.
    destruct Hnd as [Hk Hnd]. simpl in Hk.
    assert (Hfresh : topic ∉ od_keys ts).
    { intros Hin. apply (Hdis _ Hin). unfold od_keys. rewrite fmap_cons. left. }
    assert (Hrest : forall k, k ∈ od_keys ts -> k ∉ od_keys items).
    { intros k Hin Hk'. apply (Hdis _ Hin). unfold od_keys.
      rewrite fmap_cons. by right. }
    assert (Hp : t_pos tl (topic, info) =
              if T.topic_score tl info >? 0
              then Some (topic, T.topic_score tl info) else None) by done.
    simpl. rewrite Hp.
    destruct (T.topic_score tl info >? 0).
    + rewrite od_set_fresh by done. rewrite IH; [by rewrite <- List.app_assoc|done|].
      intros k. unfold od_keys at 1. rewrite fmap_app, elem_of_app.
      intros [Hin|Hin]; [by apply Hrest|].
      simpl in Hin. apply list_elem_of_singleton in Hin as ->. done.
    + by apply IH.
Qed.

Lemma first_max_keys (P : list (string * Z)) m :
  NoDup (od_keys P) ->
  is_first_max (fun t => default 0 (od_get P t)) (od_keys P) m ->
  exists p, p.1 = m /\ is_first_max snd P p.
Proof.
  intros Hnd (pre & post & H & Hpre & Hpost). unfold od_keys in H.
  apply fmap_app_inv in H as (l1 & l2 & -> & H2 & ->). symmetry in H2.
  apply fmap_cons_inv in H2 as (p & l2' & -> & -> & ->).
  assert (Hget : forall q, q ∈ l1 ++ p :: l2' ->
            default 0 (od_get (l1 ++ p :: l2') q.1) = q.2).
  { intros [k v] Hq. by rewrite (od_get_NoDup _ k v). }
  exists p. split; [done|]. exists l1, l2'. split; [done|].
  split; intros y Hy; rewrite <- (Hget y), <- (Hget p) by set_solver.
  - apply Hpre. apply list_elem_of_fmap. eauto.
  - apply Hpost. apply list_elem_of_fmap. eauto.
Qed.

Section Tenancy.
Variable legal_db : list (string * T.topic_info).
Variable text : string.
Hypothesis keys_NoDup : NoDup (od_keys legal_db).

Let tscore (e : string * T.topic_info) : Z := T.topic_score (lower text) e.2.

Lemma identify_topic_eq :
  T._identify_topic legal_db text =
  match od_keys (omap (t_pos (lower text)) legal_db) with
  | [] => None
  | k :: ks =>
      Some (max_by (fun t => default 0
              (od_get (omap (t_pos (lower text)) legal_db) t)) k ks)
  end.
Proof using keys_NoDup.
  unfold T._identify_topic.
  by rewrite score_loop_omap by (done || intros k Hk; inversion Hk).
Qed.

Lemma identify_topic_some topic :
  T._identify_topic legal_db text = Some topic ->
  exists info, best_entry tscore legal_db (topic, info).
Proof using keys_NoDup.
  rewrite identify_topic_eq.
  destruct (od_keys (omap (t_pos (lower text)) legal_db)) as [|k ks] eqn:Hkeys;
    [done|]. intros [= <-].
  pose proof (max_by_first_max
    (fun t => default 0 (od_get (omap (t_pos (lower text)) legal_db) t)) k ks)
    as Hm.
  rewrite <- Hkeys in Hm.
  apply first_max_keys in Hm as (p & Hp & Hm); [|by apply NoDup_keys_omap].
  apply (first_max_omap tscore snd) in Hm as (e & He & Hpos & Hmax);
    [|intros ? ?; apply t_pos_some | intros ?; apply t_pos_none].
  apply t_pos_key in He. destruct e as [t info]. simpl in *.
  exists info. rewrite <- Hp, He. done.
Qed.

Lemma identify_topic_none :
  T._identify_topic legal_db text = None <->
  forall e, e ∈ legal_db -> tscore e = 0.
Proof using keys_NoDup.
  rewrite identify_topic_eq. transitivity (omap (t_pos (lower text)) legal_db = []).
  - destruct (omap _ _) as [|b bs]; simpl; [done|]. split; done.
  - rewrite (omap_nil_iff tscore snd);
      [|intros ? ?; apply t_pos_some | intros ?; apply t_pos_none].
    split; intros H e He; specialize (H e He);
      pose proof (sum_ones_nonneg (fun kw => contains kw (lower text))
                    (T.keywords e.2)); unfold tscore, T.topic_score in *; lia.
Qed.

Lemma identify_topic_iff topic :
  T._identify_topic legal_db text = Some topic <->
  exists info, best_entry tscore legal_db (topic, info).
Proof using keys_NoDup.
  split; [apply identify_topic_some|]. intros [info Hbest].
  destruct (T._identify_topic legal_db text) as [topic'|] eqn:Hid.
  - apply identify_topic_some in Hid as [info' Hbest'].
    by injection (best_entry_unique _ _ _ _ Hbest Hbest') as ->.
  - destruct Hbest as [Hpos (pre & post & Heq & _)].
    rewrite identify_topic_none in Hid.
    rewrite (Hid (topic, info)) in Hpos; [lia|]. rewrite Heq. set_solver.
Qed.
End Tenancy.

Section Issue.
Variable issue_db : list (string * I.issue_info).
Variable text : string.

Let iscore (e : string * I.issue_info) : Z := I.keyword_matches (lower text) e.2.

Lemma possible_loop_omap items tl :
  I.possible_loop items tl = omap (i_pos tl) items.
Proof.
  induction items as [|[issue_type info] items IH]; [done|].
  assert (Hp : i_pos tl (issue_type, info) =
            if I.keyword_matches tl info >? 0
            then Some {| I.pos_type := issue_type;
                         I.matches := I.keyword_matches tl info;
                         I.pos_severity := I._determine_severity tl issue_type |}
            else None) by done.
  simpl. rewrite Hp, IH. by destruct (I.keyword_matches tl info >? 0).
Qed.

Lemma analyze_text_eq :
  I._analyze_text_description issue_db text =
  match omap (i_pos (lower text)) issue_db with
  | [] => (I.GeneralGuidanceResponse, 0.5%float)
  | _ :: _ =>
      (I.TextAnalysisResponse
         (sort_reverse I.matches Z.ltb (omap (i_pos (lower text)) issue_db)),
       0.7%float)
  end.
Proof. unfold I._analyze_text_description. by rewrite possible_loop_omap. Qed.

Lemma analyze_text_general :
  I._analyze_text_description issue_db text
    = (I.GeneralGuidanceResponse, 0.5%float) <->
  forall e, e ∈ issue_db -> iscore e = 0.
Proof.
  rewrite analyze_text_eq.
  transitivity (omap (i_pos (lower text)) issue_db = []).
  - destruct (omap _ _) as [|b bs]; simpl; [done|]. split; done.
  - rewrite (omap_nil_iff iscore I.matches);
      [|intros ? ?; apply i_pos_some | intros ?; apply i_pos_none].
    split; intros H e He; specialize (H e He);
      pose proof (sum_ones_nonneg (fun kw => contains kw (lower text))
                    (I.keywords e.2)); unfold iscore, I.keyword_matches in *; lia.
Qed.

Lemma primary_type_some t :
  I.primary_type (I._analyze_text_description issue_db text).1 = Some t ->
  exists info, best_entry iscore issue_db (t, info).
Proof.
  rewrite analyze_text_eq.
  destruct (omap (i_pos (lower text)) issue_db) as [|b bs] eqn:Hp; [done|].
  simpl.
  destruct (insert_desc I.matches Z.ltb b (sort_reverse I.matches Z.ltb bs))
    as [|primary rest] eqn:Hs; [done|].
  change (sort_reverse I.matches Z.ltb (b :: bs) = primary :: rest) in Hs.
  intros [= <-]. apply sort_reverse_head in Hs. rewrite <- Hp in Hs.
  apply (first_max_omap iscore I.matches) in Hs as (e & He & Hpos & Hmax);
    [|intros ? ?; apply i_pos_some | intros ?; apply i_pos_none].
  destruct e as [k info]. exists info.
  unfold i_pos in He. case_match; [|done]. injection He as <-. done.
Qed.

Lemma primary_type_iff t :
  I.primary_type (I._analyze_text_description issue_db text).1 = Some t <->
  exists info, best_entry iscore issue_db (t, info).
Proof.
  split; [apply primary_type_some|]. intros [info Hbest].
  destruct (I.primary_type (I._analyze_text_description issue_db text).1)
    as [t'|] eqn:Hprim.
  - apply primary_type_some in Hprim as [info' Hbest'].
    by injection (best_entry_unique _ _ _ _ Hbest Hbest') as ->.
  - exfalso. destruct Hbest as [Hpos (pre & post & Heq & _)].
    rewrite analyze_text_eq in Hprim.
    destruct (omap (i_pos (lower text)) issue_db) as [|b bs] eqn:Hp.
    + rewrite (omap_nil_iff iscore I.matches) in Hp;
        [|intros ? ?; apply i_pos_some | intros ?; apply i_pos_none].
      specialize (Hp (t, info)). rewrite Heq in Hp.
      assert (iscore (t, info) <= 0) by (apply Hp; set_solver). lia.
    + simpl in Hprim.
      destruct (insert_desc I.matches Z.ltb b (sort_reverse I.matches Z.ltb bs))
        eqn:Hs; [|done].
      by apply insert_desc_nonempty in Hs.
Qed.
End Issue.

(** C4: identification returns the first entry of the table, in table
    order, whose keyword score is the greatest, provided that score is
    positive, and nothing exactly when every entry scores zero: for the
    tenancy agent's [_identify_topic] over a table with distinct keys (a
    dictionary), and for the issue named first by the issue agent's
    [_analyze_text_description]. *)
Theorem identify_first_best
    (legal_db : list (string * T.topic_info))
    (issue_db : list (string * I.issue_info)) (text : string) :
  NoDup (od_keys legal_db) ->
  (forall topic,
     T._identify_topic legal_db text = Some topic <->
     exists info,
       best_entry (fun e => T.topic_score (lower text) e.2) legal_db (topic, info))
  /\ (T._identify_topic legal_db text = None <->
      forall e, e ∈ legal_db -> T.topic_score (lower text) e.2 = 0)
  /\ (forall issue_type,
        I.primary_type (I._analyze_text_description issue_db text).1
          = Some issue_type <->
        exists info,
          best_entry (fun e => I.keyword_matches (lower text) e.2) issue_db
            (issue_type, info))
  /\ (I._analyze_text_description issue_db text
        = (I.GeneralGuidanceResponse, 0.5%float) <->
      forall e, e ∈ issue_db -> I.keyword_matches (lower text) e.2 = 0).
Proof.
  intros Hnd. split; [|split; [|split]].
  - intros topic. by apply identify_topic_iff.
  - by apply identify_topic_none.
  - intros t. apply primary_type_iff.
  - apply analyze_text_general.
Qed.

Lemma legal_database_keys : NoDup (od_keys T.legal_database).
Proof. apply (bool_decide_unpack _). by vm_compute. Qed.

(** C4 on the two tables of the program: a text that scores one on three
    legal topics is answered by the first of them in table order, and a text
    without any keyword by none. *)
Lemma identify_first_best_witness :
  T._identify_topic T.legal_database "rent increase, deposit and my rights"
    = Some "rent_increase"
  /\ T._identify_topic T.legal_database "hello there" = None.
Proof.
  split.
  - destruct (identify_first_best T.legal_database I.issue_database
                "rent increase, deposit and my rights" legal_database_keys)
      as (H & _).
    apply H.
    exists {| T.keywords := ["rent increase"; "raise rent"; "rent hike";
                             "increase rent"] |}.
    split; [by vm_compute|].
    exists (take 1 T.legal_database), (drop 2 T.legal_database).
    split; [reflexivity|].
    split; intros y Hy; unfold T.legal_database in Hy; simpl in Hy.
    + apply list_elem_of_singleton in Hy as ->. by vm_compute.
    + repeat (apply elem_of_cons in Hy as [->|Hy]; [by vm_compute|]).
      inversion Hy.
  - destruct (identify_first_best T.legal_database I.issue_database
                "hello there" legal_database_keys) as (_ & H & _).
    apply H. intros e He.
    repeat (apply elem_of_cons in He as [->|He]; [by vm_compute|]).
    inversion He.
Defined.

End TopicFacts.

(** ** Floats: comparisons and the clamp *)

Lemma ltb_leb (a b : float) : PrimFloat.ltb a b = true -> fle a b.
Proof.
  unfold fle. rewrite ltb_spec, leb_spec. unfold SFltb, SFleb.
  by destruct (SFcompare _ _) as [[]|].
Qed.

(** [min(hi, max(lo, x))] lies between [lo] and [hi], whatever [x] is. *)
Lemma clamp_range (lo hi x : float) :
  PrimFloat.ltb lo hi = true ->
  PrimFloat.leb lo lo = true -> PrimFloat.leb hi hi = true ->
  fle lo (py_min hi (py_max lo x)) /\ fle (py_min hi (py_max lo x)) hi.
Proof.
  intros Hlt Hlo Hhi. unfold py_min, py_max.
  destruct (PrimFloat.ltb lo x) eqn:Hx.
  - destruct (PrimFloat.ltb x hi) eqn:Hh.
    + split; by apply ltb_leb.
    + split; [by apply ltb_leb | done].
  - rewrite Hlt. split; [done | by apply ltb_leb].
Qed.

Lemma any_spec {A} (p : A -> bool) xs :
  any p xs = true <-> exists x, x ∈ xs /\ p x = true.
Proof.
  induction xs as [|x xs IH]; simpl.
  - split; [done | intros (x & Hx & _); inversion Hx].
  - destruct (p x) eqn:Hp.
    + split; [|done]. intros _. exists x. split; [left|done].
    + rewrite IH. split.
      * intros (y & Hy & Hpy). exists y. split; [by right|done].
      * intros (y & [->|Hy]%elem_of_cons & Hpy); [congruence|eauto].
Qed.

(** ** Confidence estimation *)

Module ConfidenceFacts.
Import PyStr PyStrFacts TopicFacts.

(** No keyword list of [issue_database] has more than six keywords, so no
    keyword count exceeds six. *)
Definition max_keywords : Z := 6.

(** A detected issue as [_simulate_image_analysis] builds it: its
    confidence is computed from its keyword count, which is positive and
    bounded by the length of the keyword list. *)
Definition as_detected (p : I.detected_issue) : Prop :=
  0 < I.keywords_matched p <= max_keywords
  /\ I.confidence p = I.detection_confidence (I.keywords_matched p).

(** Split a bounded keyword count into its possible values. *)
Ltac count_cases k :=
  let H := fresh in
  assert (H : k = 1 \/ k = 2 \/ k = 3 \/ k = 4 \/ k = 5 \/ k = 6)
    by (unfold max_keywords in *; lia);
  destruct H as [->|[->|[->|[->|[->| ->]]]]].

Lemma insert_desc_elem {A K} (key : A -> K) lt x sorted y :
  y ∈ insert_desc key lt x sorted -> y = x \/ y ∈ sorted.
Proof.
  induction sorted as [|z sorted IH]; simpl.
  - intros ->%list_elem_of_singleton. by left.
  - destruct (lt (key x) (key z)).
    + intros [->|Hy]%elem_of_cons; [right; left|].
      destruct (IH Hy) as [->|?]; [by left | right; by right].
    + intros [->|Hy]%elem_of_cons; [by left | by right].
Qed.

Lemma sort_reverse_elem {A K} (key : A -> K) lt xs y :
  y ∈ sort_reverse key lt xs -> y ∈ xs.
Proof.
  induction xs as [|x xs IH]; simpl; [done|].
  intros [->|Hy]%insert_desc_elem; set_solver.
Qed.

Lemma issue_keywords_bound tl e :
  e ∈ I.issue_database -> I.keyword_matches tl e.2 <= max_keywords.
Proof.
  intros He. unfold I.keyword_matches.
  pose proof (sum_ones_le_length (fun kw => contains kw tl) (I.keywords e.2)).
  assert (Z.of_nat (length (I.keywords e.2)) <= max_keywords); [|lia].
  unfold I.issue_database in He.
  repeat (apply elem_of_cons in He as [->|He]; [by vm_compute|]).
  inversion He.
Qed.

Lemma detect_loop_as_detected items tl p :
  (forall e, e ∈ items -> I.keyword_matches tl e.2 <= max_keywords) ->
  p ∈ I.detect_loop items tl -> as_detected p.
Proof.
  induction items as [|[issue_type info] items IH]; intros Hb; simpl;
    [intros Hp; inversion Hp|].
  assert (I.keyword_matches tl info <= max_keywords)
    by (apply (Hb (issue_type, info)); left).
  assert (forall e, e ∈ items -> I.keyword_matches tl e.2 <= max_keywords)
    by (intros e He; apply Hb; by right).
  rewrite Z.gtb_ltb. destruct (Z.ltb_spec 0 (I.keyword_matches tl info)); [|auto].
  intros [->|Hp]%elem_of_cons; [|auto]. split; simpl; [lia|done].
Qed.

(** Every issue reported by [_simulate_image_analysis] over the program's
    table is of that form. *)
Lemma simulate_as_detected description p :
  p ∈ I._simulate_image_analysis I.issue_database description -> as_detected p.
Proof.
  unfold I._simulate_image_analysis. intros Hp.
  apply subseteq_take, sort_reverse_elem in Hp.
  eapply detect_loop_as_detected; [|done].
  intros e He. by apply issue_keywords_bound.
Qed.

Lemma issue_confidence_range detected_issues description_length :
  detected_issues <> [] ->
  fle 0.5 (I._calculate_confidence detected_issues description_length)
  /\ fle (I._calculate_confidence detected_issues description_length) 0.95.
Proof.
  destruct detected_issues as [|primary others]; [done|]. intros _.
  unfold I._calculate_confidence. by apply clamp_range.
Qed.

Lemma issue_confidence_mono p1 p2 others1 others2 description_length :
  as_detected p1 -> as_detected p2 ->
  I.keywords_matched p1 <= I.keywords_matched p2 ->
  length others1 = length others2 ->
  fle (I._calculate_confidence (p1 :: others1) description_length)
      (I._calculate_confidence (p2 :: others2) description_length).
Proof.
  destruct p1 as [t1 c1 s1 k1], p2 as [t2 c2 s2 k2]. unfold as_detected. simpl.
  intros [Hk1 ->] [Hk2 ->] Hle Hlen. rewrite Hlen.
  destruct (description_length >? 50), (description_length <? 10),
    (Z.of_nat (S (length others2)) >? 1);
    count_cases k1; count_cases k2; try lia; by vm_compute.
Qed.

Lemma topic_score_le_matches text info :
  T.topic_score (lower text) info <= T.keyword_matches text info.
Proof.
  apply sum_ones_mono. intros kw _ Hc.
  by rewrite (contains_lower_is_lower _ _ Hc).
Qed.

(** An identified topic is a key of the table, and at least one of its
    keywords is counted by [_calculate_confidence]. *)
Lemma identified_matches legal_db text topic :
  NoDup (od_keys legal_db) ->
  T._identify_topic legal_db text = Some topic ->
  exists info, od_get legal_db topic = Some info
    /\ 1 <= T.keyword_matches text info.
Proof.
  intros Hnd Hid. apply identify_topic_some in Hid as [info [Hpos Hmax]]; [|done].
  exists info. split.
  - apply od_get_NoDup; [done|]. destruct Hmax as (pre & post & -> & _).
    set_solver.
  - pose proof (topic_score_le_matches text info). simpl in Hpos. lia.
Qed.

Lemma calculate_confidence_eq legal_db text topic location info :
  od_get legal_db topic = Some info ->
  T._calculate_confidence legal_db text topic location
  = Ok (T.adjust (T.keyword_matches text info) location).
Proof. intros H. unfold T._calculate_confidence, od_getitem. by rewrite H. Qed.

Lemma adjust_range keyword_matches location :
  fle 0.6 (T.adjust keyword_matches location)
  /\ fle 0.65 (T.adjust keyword_matches location)
  /\ fle (T.adjust keyword_matches location) 0.95
  /\ PrimFloat.ltb 0.6 (T.adjust keyword_matches location) = true.
Proof.
  unfold T.adjust.
  destruct (keyword_matches >? 2), (keyword_matches =? 1);
    destruct location as [[|c loc]|]; try destruct (any _ _); by vm_compute.
Qed.

Lemma adjust_mono km1 km2 location :
  1 <= km1 -> km1 <= km2 ->
  fle (T.adjust km1 location) (T.adjust km2 location).
Proof.
  intros H1 Hle. unfold T.adjust. rewrite !Z.gtb_ltb.
  destruct (Z.ltb_spec 2 km1), (Z.ltb_spec 2 km2),
    (Z.eqb_spec km1 1), (Z.eqb_spec km2 1); try lia;
    destruct location as [[|c loc]|]; try destruct (any _ _); by vm_compute.
Qed.

(** C5: the confidence lies in its documented interval: between 0.5 and
    0.95 for the issue agent whenever an issue was detected, whatever the
    detected issues and the description length are, and between 0.6 and 0.95
    for the tenancy agent whenever a topic was identified, whatever the text
    and the location are. *)
Theorem confidence_within_bounds :
  (forall detected_issues description_length,
     detected_issues <> [] ->
     fle 0.5 (I._calculate_confidence detected_issues description_length)
     /\ fle (I._calculate_confidence detected_issues description_length) 0.95)
  /\ (forall legal_db text topic location,
        NoDup (od_keys legal_db) ->
        T._identify_topic legal_db text = Some topic ->
        exists c, T._calculate_confidence legal_db text topic location = Ok c
          /\ fle 0.6 c /\ fle c 0.95).
Proof.
  split; [apply issue_confidence_range|].
  intros legal_db text topic location Hnd Hid.
  destruct (identified_matches _ _ _ Hnd Hid) as (info & Hget & _).
  rewrite (calculate_confidence_eq _ _ _ _ _ Hget).
  destruct (adjust_range (T.keyword_matches text info) location) as (? & _ & ? & _).
  eauto.
Qed.

(** C5 on a description that names two issues, and on an eviction question
    asked from Texas. *)
Lemma confidence_within_bounds_witness :
  (fle 0.5 (I._calculate_confidence
              (I._simulate_image_analysis I.issue_database
                 "a leak and a crack") 18)
   /\ fle (I._calculate_confidence
             (I._simulate_image_analysis I.issue_database
                "a leak and a crack") 18) 0.95)
  /\ exists c,
       T._calculate_confidence T.legal_database "Can I be evicted?" "eviction"
         (Some "Austin, Texas") = Ok c
       /\ fle 0.6 c /\ fle c 0.95.
Proof.
  destruct confidence_within_bounds as [Hi Ht]. split.
  - apply Hi. by vm_compute.
  - apply Ht; [apply legal_database_keys | by vm_compute].
Defined.

(** C7: with the other inputs fixed, the confidence does not decrease when
    the keyword count grows: for the issue agent in the keyword count of the
    primary issue (the description length and the number of supporting
    issues being the same), and for the tenancy agent, the topic being
    identified for both texts, in the number of the topic's keywords found
    (the location being the same). *)
Theorem confidence_monotone_in_matches :
  (forall p1 p2 others1 others2 description_length,
     as_detected p1 -> as_detected p2 ->
     I.keywords_matched p1 <= I.keywords_matched p2 ->
     length others1 = length others2 ->
     fle (I._calculate_confidence (p1 :: others1) description_length)
         (I._calculate_confidence (p2 :: others2) description_length))
  /\ (forall legal_db text1 text2 topic info location,
        NoDup (od_keys legal_db) ->
        T._identify_topic legal_db text1 = Some topic ->
        T._identify_topic legal_db text2 = Some topic ->
        od_get legal_db topic = Some info ->
        T.keyword_matches text1 info <= T.keyword_matches text2 info ->
        exists c1 c2,
          T._calculate_confidence legal_db text1 topic location = Ok c1
          /\ T._calculate_confidence legal_db text2 topic location = Ok c2
          /\ fle c1 c2).
Proof.
  split; [apply issue_confidence_mono|].
  intros legal_db text1 text2 topic info location Hnd Hid1 Hid2 Hget Hle.
  destruct (identified_matches _ _ _ Hnd Hid1) as (info1 & Hget1 & Hm1).
  assert (info1 = info) as -> by congruence.
  rewrite !(calculate_confidence_eq _ _ _ _ _ Hget).
  eexists _, _. split; [done|]. split; [done|]. by apply adjust_mono.
Qed.

(** C7 on two descriptions of water damage with one and with two of its
    keywords, and on two eviction questions with one and with three. *)
Lemma confidence_monotone_in_matches_witness :
  fle (I._calculate_confidence
         (I._simulate_image_analysis I.issue_database "there is a leak") 15)
      (I._calculate_confidence
         (I._simulate_image_analysis I.issue_database "a wet leak here") 15)
  /\ exists c1 c2,
       T._calculate_confidence T.legal_database "they evict me" "eviction" None
         = Ok c1
       /\ T._calculate_confidence T.legal_database
            "eviction: remove or evict" "eviction" None = Ok c2
       /\ fle c1 c2.
Proof.
  destruct confidence_monotone_in_matches as [Hi Ht]. split.
  - change (I._simulate_image_analysis I.issue_database "there is a leak")
      with ([{| I.type := "water_damage";
                I.confidence := I.detection_confidence 1;
                I.det_severity := I.Minor; I.keywords_matched := 1 |}]).
    change (I._simulate_image_analysis I.issue_database "a wet leak here")
      with ([{| I.type := "water_damage";
                I.confidence := I.detection_confidence 2;
                I.det_severity := I.Minor; I.keywords_matched := 2 |}]).
    apply Hi; try done; split; simpl; (done || unfold max_keywords; lia).
  - apply (Ht T.legal_database "they evict me" "eviction: remove or evict"
             "eviction"
             {| T.keywords := ["evict"; "eviction"; "kick out"; "remove";
                               "terminate lease"] |} None);
      [apply legal_database_keys | by vm_compute ..].
Defined.

(** C10: for an identified topic the tenancy confidence is at least 0.65
    and at most 0.95, and it is strictly above the floor 0.6 of the
    clamp. *)
Theorem tenancy_confidence_floor legal_db text topic location :
  NoDup (od_keys legal_db) ->
  T._identify_topic legal_db text = Some topic ->
  exists c, T._calculate_confidence legal_db text topic location = Ok c
    /\ fle 0.65 c /\ fle c 0.95 /\ PrimFloat.ltb 0.6 c = true.
Proof.
  intros Hnd Hid.
  destruct (identified_matches _ _ _ Hnd Hid) as (info & Hget & _).
  rewrite (calculate_confidence_eq _ _ _ _ _ Hget).
  destruct (adjust_range (T.keyword_matches text info) location) as (_ & ? & ? & ?).
  eauto.
Qed.

(** C10 where the least confidence is reached: one keyword and no
    location. *)
Lemma tenancy_confidence_floor_witness :
  exists c,
    T._calculate_confidence T.legal_database "they evict me" "eviction" None
      = Ok c
    /\ fle 0.65 c /\ fle c 0.95 /\ PrimFloat.ltb 0.6 c = true.
Proof.
  apply tenancy_confidence_floor; [apply legal_database_keys | by vm_compute].
Defined.

(** The two ends of the range are reached. *)
Example tenancy_confidence_least :
  T._calculate_confidence T.legal_database "they evict me" "eviction" None
    = Ok 0.65%float.
Proof. by vm_compute. Qed.

Example tenancy_confidence_greatest :
  T._calculate_confidence T.legal_database "eviction: remove or evict"
    "eviction" (Some "Texas") = Ok 0.95%float.
Proof. by vm_compute. Qed.

End ConfidenceFacts.

(** ** Severity *)

Module SeverityFacts.
Import PyStr PyStrFacts.
Module I := IssueDetectionAgent.

(** Some word of the list appears in the text. *)
Definition appears (words : list string) (text : string) : Prop :=
  exists w, w ∈ words /\ exists pre post, text = pre +:+ w +:+ post.

Lemma any_appears words text :
  any (fun w => contains w text) words = true <-> appears words text.
Proof.
  rewrite any_spec. unfold appears.
  split; intros (w & Hw & H); exists w; (split; [done|]); by apply contains_spec.
Qed.

(** C8: the severity is severe when a severe indicator appears in the
    lower-cased text, otherwise moderate when a moderate indicator appears
    in it, and otherwise minor; the three examples of the specification are
    classified accordingly. *)
Theorem classify_first_tier text :
  I.severe_indicators =
    ["extensive"; "large"; "major"; "severe"; "bad"; "terrible"; "everywhere"]
  /\ I.moderate_indicators =
    ["noticeable"; "visible"; "concerning"; "growing"; "spreading"]
  /\ (appears I.severe_indicators (lower text) -> I.classify text = I.Severe)
  /\ (~ appears I.severe_indicators (lower text) ->
      appears I.moderate_indicators (lower text) ->
      I.classify text = I.Moderate)
  /\ (~ appears I.severe_indicators (lower text) ->
      ~ appears I.moderate_indicators (lower text) ->
      I.classify text = I.Minor)
  /\ I.classify "there is extensive mold everywhere" = I.Severe
  /\ I.classify "a small noticeable stain" = I.Moderate
  /\ I.classify "a tiny mark" = I.Minor.
Proof.
  split; [done|]. split; [done|].
  unfold I.classify, I._determine_severity. rewrite <- !any_appears.
  destruct (any _ I.severe_indicators), (any _ I.moderate_indicators);
    repeat split; try done; intros; congruence.
Qed.

End SeverityFacts.

(** ** The scenarios of the specification *)

Module Scenarios.
Import AgentRouter.
Module T := TenancyFAQAgent.
Module I := IssueDetectionAgent.

Example tenancy_question :
  tenancy_score "Can my landlord evict me without notice?" = 7
  /\ issue_score "Can my landlord evict me without notice?" = 0
  /\ route_request "Can my landlord evict me without notice?" false None
     = Ok agent2
  /\ T._identify_topic T.legal_database
       "Can my landlord evict me without notice?" = Some "eviction".
Proof. repeat split; by vm_compute. Qed.

Example issue_description :
  issue_score "There's a water leak and mold on my ceiling" = 5
  /\ tenancy_score "There's a water leak and mold on my ceiling" = 0
  /\ route_request "There's a water leak and mold on my ceiling" false None
     = Ok agent1
  /\ I.primary_type
       (I._analyze_text_description I.issue_database
          "There's a water leak and mold on my ceiling").1
     = Some "water_damage".
Proof. repeat split; by vm_compute. Qed.

Example image_dominates :
  tenancy_score "my landlord violated the lease" = 2
  /\ issue_score "my landlord violated the lease" = 0
  /\ route_request "my landlord violated the lease" true None = Ok agent1.
Proof. repeat split; by vm_compute. Qed.

Example sticky_tie :
  issue_score "rent and mold" = 1 /\ tenancy_score "rent and mold" = 1
  /\ route_request "rent and mold" false (Some {[ "last_agent" := agent2 ]})
     = Ok agent2
  /\ route_request "rent and mold" false None = Ok router
  /\ route_request "rent and mold" false (Some ∅) = Ok router
  /\ route_request "rent and mold" false
       (Some {[ "topics" := PyList ["rent"] ]}) = Ok router.
Proof. repeat split; by vm_compute. Qed.

Example no_signal : route_request "hello there" false None = Ok router.
Proof. by vm_compute. Qed.

End Scenarios.

(** * The rest of the program *)

Set Warnings "-clear-no-such-hyp".

(** ** utils.py: the conversation manager *)

Module ConversationManager.
Import PyStr.

(** A message of [message_history]; [timestamp] is the clock reading
    [datetime.now().isoformat()] at the call. *)
Record message : Type := {
  msg_type : string;
  content : string;
  agent : option string;
  timestamp : string;
  metadata : gmap string pyval
}.

(** The manager.  Its [context] dictionary is written by [_update_context]
    only and holds at most the keys [last_agent] (a string) and [topics] (a
    list of strings): it is kept as these two optional entries. *)
Record manager : Type := {
  last_agent : option string;
  topics : option (list string);
  message_history : list message
}.

(** [__init__], and the state [clear_context] returns to. *)
Definition init : manager :=
  {| last_agent := None; topics := None; message_history := [] |}.

(** Truth value of an [Optional[str]]. *)
Definition str_truthy (s : option string) : bool :=
  match s with
  | Some (String _ _) => true
  | _ => false
  end.

(** The local list [topics] of [_update_context]. *)
Definition known_topics : list string :=
  ["eviction"; "rent"; "deposit"; "repair"; "lease"; "damage"; "mold"; "leak"].

(** The loop of [_update_context] over the known topics, on the list stored
    under [topics]. *)
Fixpoint topic_loop (candidates : list string) (content_lower : string)
    (seen : list string) : list string :=
  match candidates with
  | [] => seen
  | topic :: rest =>
      topic_loop rest content_lower
        (if contains topic content_lower && negb (bool_decide (topic ∈ seen))
         then seen ++ [topic] else seen)
  end.

Definition _update_context (self : manager) (message : message) : manager :=
  {| last_agent :=
       if str_truthy (agent message) then agent message else last_agent self;
     topics :=
       Some (topic_loop known_topics (lower (content message))
               (default [] (topics self)));
     message_history := message_history self |}.

Definition add_message (self : manager) (message_type content : string)
    (agent : option string) (metadata : option (gmap string pyval))
    (now : string) : manager :=
  let message :=
    {| msg_type := message_type; content := content; agent := agent;
       timestamp := now; metadata := default ∅ metadata |} in
  _update_context
    {| last_agent := last_agent self; topics := topics self;
       message_history := message_history self ++ [message] |}
    message.

(** [get_context]: the context dictionary. *)
Definition get_context (self : manager) : gmap string pyval :=
  let d : gmap string pyval :=
    match topics self with
    | Some l => {[ "topics" := PyList l ]}
    | None => ∅
    end in
  match last_agent self with
  | Some a => <[ "last_agent" := PyStr a ]> d
  | None => d
  end.

(** [xs[start:]]: a negative [start] counts from the end. *)
Definition slice_from {A : Type} (xs : list A) (start : Z) : list A :=
  let n := Z.of_nat (length xs) in
  let start := if start <? 0 then Z.max (n + start) 0 else Z.min start n in
  drop (Z.to_nat start) xs.

Definition get_recent_messages (self : manager) (count : Z) : list message :=
  slice_from (message_history self) (- count).

Definition clear_context (self : manager) : manager := init.

End ConversationManager.

Module ConversationFacts.
Import PyStr PyStrFacts AgentRouter RouterFacts.
Module CM := ConversationManager.

(** One call of [add_message]. *)
Record call : Type := {
  c_type : string;
  c_content : string;
  c_agent : option string;
  c_metadata : option (gmap string pyval);
  c_now : string
}.

Definition apply_call (self : CM.manager) (c : call) : CM.manager :=
  CM.add_message self (c_type c) (c_content c) (c_agent c) (c_metadata c)
    (c_now c).

(** The manager after a sequence of calls of [add_message] on a new one. *)
Definition run (calls : list call) : CM.manager :=
  fold_left apply_call calls CM.init.

(** The message a call stores. *)
Definition stored (c : call) : CM.message :=
  {| CM.msg_type := c_type c; CM.content := c_content c;
     CM.agent := c_agent c; CM.timestamp := c_now c;
     CM.metadata := default ∅ (c_metadata c) |}.

Lemma topic_loop_prefix candidates cl seen :
  seen `prefix_of` CM.topic_loop candidates cl seen.
Proof.
  revert seen. induction candidates as [|t rest IH]; intros seen; simpl; [done|].
  destruct (contains t cl && negb (bool_decide (t ∈ seen))); [|apply IH].
  etrans; [|apply IH]. by apply prefix_app_r.
Qed.

Lemma topic_loop_elem candidates cl seen t :
  t ∈ CM.topic_loop candidates cl seen <->
  t ∈ seen \/ (t ∈ candidates /\ contains t cl = true).
Proof.
  revert seen. induction candidates as [|c rest IH]; intros seen; simpl.
  - split; [by left|]. intros [H|[H _]]; [done | inversion H].
  - rewrite IH. destruct (contains c cl) eqn:Hc; simpl.
    + destruct (bool_decide_reflect (c ∈ seen)) as [Hin|Hin]; simpl.
      * split; [|set_solver]. intros [H|[H H']]; [by left|].
        right. split; [by right|done].
      * rewrite elem_of_app, list_elem_of_singleton. split.
        -- intros [[H| ->]|[H H']]; [by left|right|right]; set_solver.
        -- intros [H|[[->|H]%elem_of_cons H']]; [left; by left|left; by right|].
           right. done.
    + split; [intros [H|[H H']]; [by left|right; set_solver]|].
      intros [H|[[->|H]%elem_of_cons H']]; [by left|congruence|by right].
Qed.

Lemma topic_loop_NoDup candidates cl seen :
  NoDup seen -> NoDup (CM.topic_loop candidates cl seen).
Proof.
  revert seen. induction candidates as [|c rest IH]; intros seen Hnd; simpl;
    [done|].
  apply IH. destruct (contains c cl); simpl; [|done].
  destruct (bool_decide_reflect (c ∈ seen)) as [Hin|Hin]; simpl; [done|].
  apply NoDup_app. split; [done|]. split; [|apply NoDup_singleton].
  intros x Hx ->%list_elem_of_singleton. done.
Qed.

Lemma add_message_topics_eq self message_type content agent metadata now :
  CM.topics (CM.add_message self message_type content agent metadata now)
  = Some (CM.topic_loop CM.known_topics (lower content)
            (default [] (CM.topics self))).
Proof. reflexivity. Qed.

Lemma add_message_history self message_type content agent metadata now :
  CM.message_history
    (CM.add_message self message_type content agent metadata now)
  = CM.message_history self
    ++ [{| CM.msg_type := message_type; CM.content := content;
           CM.agent := agent; CM.timestamp := now;
           CM.metadata := default ∅ metadata |}].
Proof. reflexivity. Qed.

Lemma add_message_last_agent self message_type content agent metadata now :
  CM.last_agent (CM.add_message self message_type content agent metadata now)
  = if CM.str_truthy agent then agent else CM.last_agent self.
Proof. reflexivity. Qed.

(** X1: [add_message] keeps the topics recorded so far in their order and
    adds, behind them and once each, exactly the known topics that occur in
    the lower-cased content and were not recorded yet. *)
Theorem add_message_topics self message_type content agent metadata now :
  exists recorded,
    CM.topics (CM.add_message self message_type content agent metadata now)
      = Some recorded
    /\ default [] (CM.topics self) `prefix_of` recorded
    /\ (forall t, t ∈ recorded <->
          t ∈ default [] (CM.topics self)
          \/ (t ∈ CM.known_topics /\ contains t (lower content) = true))
    /\ (NoDup (default [] (CM.topics self)) -> NoDup recorded).
Proof.
  rewrite add_message_topics_eq. eexists. split; [reflexivity|].
  split; [apply topic_loop_prefix|].
  split; [intros t; apply topic_loop_elem | apply topic_loop_NoDup].
Qed.

Lemma run_snoc calls c : run (calls ++ [c]) = apply_call (run calls) c.
Proof. unfold run. by rewrite fold_left_app. Qed.

(** X2: in every state reached from a new manager by calls of
    [add_message], the history holds one message per call, in call order
    and with the fields given to the call, and the recorded topics are known
    topics without repetition. *)
Theorem run_invariant calls :
  CM.message_history (run calls) = stored <$> calls
  /\ NoDup (default [] (CM.topics (run calls)))
  /\ (forall t, t ∈ default [] (CM.topics (run calls)) -> t ∈ CM.known_topics).
Proof.
  induction calls as [|c calls IH] using rev_ind.
  - split; [done|]. split; [apply NoDup_nil_2 | intros t Ht; inversion Ht].
  - destruct IH as (Hh & Hnd & Hsub). rewrite run_snoc.
    unfold apply_call.
    rewrite add_message_history, add_message_topics_eq. split; [|split].
    + by rewrite Hh, fmap_app.
    + by apply topic_loop_NoDup.
    + intros t [Ht|[Ht _]]%topic_loop_elem; auto.
Qed.

Lemma slice_from_nonneg {A} (xs : list A) start :
  0 <= start -> CM.slice_from xs start = drop (Z.to_nat start) xs.
Proof.
  intros Hs. unfold CM.slice_from.
  destruct (Z.ltb_spec start 0); [lia|].
  destruct (Z.le_gt_cases start (Z.of_nat (length xs))).
  - by rewrite Z.min_l by lia.
  - rewrite Z.min_r by lia. rewrite Nat2Z.id.
    rewrite !drop_ge; [done|lia|lia].
Qed.

(** X3: [get_recent_messages] with a positive [count] returns the last
    [count] messages (all of them when there are fewer); with [count] zero
    it returns the whole history, not the empty list; and with a negative
    [count] it skips that many messages from the start. *)
Theorem get_recent_messages_spec self count :
  (0 < count ->
   exists older,
     CM.message_history self = older ++ CM.get_recent_messages self count
     /\ Z.of_nat (length (CM.get_recent_messages self count))
        = Z.min count (Z.of_nat (length (CM.message_history self))))
  /\ CM.get_recent_messages self 0 = CM.message_history self
  /\ (count < 0 ->
      CM.get_recent_messages self count
      = drop (Z.to_nat (- count)) (CM.message_history self)).
Proof.
  unfold CM.get_recent_messages. split; [|split].
  - intros Hc. unfold CM.slice_from.
    destruct (Z.ltb_spec (- count) 0); [|lia].
    set (h := CM.message_history self).
    exists (take (Z.to_nat (Z.max (Z.of_nat (length h) + - count) 0)) h).
    split; [by rewrite take_drop|]. rewrite length_drop. lia.
  - by rewrite slice_from_nonneg.
  - intros Hc. by rewrite slice_from_nonneg by lia.
Qed.

(** The last message is the one just added. *)
Lemma get_recent_messages_last self c :
  CM.get_recent_messages (apply_call self c) 1 = [stored c].
Proof.
  unfold CM.get_recent_messages, CM.slice_from, apply_call.
  rewrite add_message_history. fold (stored c). rewrite length_app. simpl.
  match goal with |- drop ?n _ = _ =>
    replace n with (length (CM.message_history self)) by lia end.
  by rewrite drop_app_length.
Qed.

Lemma get_context_last_agent self :
  RouterSpec.last_agent (Some (CM.get_context self))
  = PyStr <$> CM.last_agent self.
Proof.
  unfold RouterSpec.last_agent, CM.get_context. simpl.
  destruct (CM.last_agent self) as [a|]; simpl.
  - by rewrite lookup_insert_eq.
  - destruct (CM.topics self); [by rewrite lookup_singleton_ne|done].
Qed.

(** X4: the manager and the router together: after a message with a
    non-empty agent name, a tie of the two scores above zero is answered by
    that agent; a message without an agent (a user message) leaves every
    routing decision as it was; and with a new or cleared manager a tie is
    answered by the router. *)
Theorem sticky_routing self message_type content metadata now text :
  (forall c a,
     issue_score text = tenancy_score text -> issue_score text > 0 ->
     route_request text false
       (Some (CM.get_context
          (CM.add_message self message_type content (Some (String c a))
             metadata now)))
     = Ok (PyStr (String c a)))
  /\ route_request text false
       (Some (CM.get_context
          (CM.add_message self message_type content None metadata now)))
     = route_request text false (Some (CM.get_context self))
  /\ route_request text false
       (Some (CM.get_context
          (CM.add_message self message_type content (Some "") metadata now)))
     = route_request text false (Some (CM.get_context self))
  /\ (issue_score text = tenancy_score text ->
      route_request text false
        (Some (CM.get_context (CM.clear_context self))) = Ok router).
Proof.
  rewrite !route_request_text, !get_context_last_agent.
  rewrite !add_message_last_agent. simpl.
  repeat split; intros; zcases.
Qed.

End ConversationFacts.

(** ** agent_router.py: conversation analysis and routing explanations *)

Module RouterAnalysis.
Import PyStr AgentRouter.
Module CM := ConversationManager.

(** How a call ends: with a value, a [KeyError] or a [ValueError]. *)
Inductive outcome (A : Type) : Type :=
  | Returned (a : A)
  | KeyErr (key : string)
  | ValueErr.
Arguments Returned {A} a.
Arguments KeyErr {A} key.
Arguments ValueErr {A}.

(** The dictionary [agent_usage] before the loop. *)
Definition initial_usage : list (string * Z) :=
  [("agent1", 0); ("agent2", 0); ("router", 0)].

(** The loop of [analyze_conversation_flow] over the messages. *)
Fixpoint usage_loop (messages : list CM.message)
    (agent_usage : list (string * Z)) : list (string * Z) :=
  match messages with
  | [] => agent_usage
  | msg :: rest =>
      usage_loop rest
        (match CM.agent msg with
         | Some a =>
             if String.eqb (CM.msg_type msg) "bot" && CM.str_truthy (Some a)
             then od_set agent_usage a (default 0 (od_get agent_usage a) + 1)
             else agent_usage
         | None => agent_usage
         end)
  end.

Definition _determine_conversation_type (agent_usage : list (string * Z))
    : result string :=
  a1 ← od_getitem agent_usage "agent1";
  a2 ← od_getitem agent_usage "agent2";
  mret (if a1 >? a2 then "issue_focused"
        else if a2 >? a1 then "tenancy_focused"
        else "mixed").

(** The dictionary [analyze_conversation_flow] returns. *)
Record flow : Type := {
  agent_usage : list (string * Z);
  total_messages : Z;
  dominant_agent : string;
  conversation_type : string
}.

Definition analyze_conversation_flow (messages : list CM.message)
    : outcome flow :=
  let agent_usage := usage_loop messages initial_usage in
  match od_keys agent_usage with
  | [] => ValueErr
  | k :: ks =>
      let dominant :=
        max_by (fun a => default 0 (od_get agent_usage a)) k ks in
      match _determine_conversation_type agent_usage with
      | Ok conversation_type =>
          Returned {| agent_usage := agent_usage;
                      total_messages := Z.of_nat (length messages);
                      dominant_agent := dominant;
                      conversation_type := conversation_type |}
      | Raise (KeyError key) => KeyErr key
      end
  end.

(** [sep.join(parts)]. *)
Fixpoint join (sep : string) (parts : list string) : string :=
  match parts with
  | [] => ""
  | [part] => part
  | part :: rest => part +:+ sep +:+ join sep rest
  end.

(** The dictionary [explanations]; characters outside ASCII stand as their
    UTF-8 bytes. *)
Definition explanations : list (string * string) :=
  [ ("agent1", "🔍 **Routed to Issue Detection Agent** - ");
    ("agent2", "⚖️ **Routed to Tenancy FAQ Agent** - ");
    ("router", "🏠 **Handled by Main Assistant** - ") ].

(** The list [reasons] of [get_routing_explanation]. *)
Definition routing_reasons (text : string) (has_image : bool) : list string :=
  let reasons := if has_image then ["image uploaded for analysis"] else [] in
  let text_lower := lower text in
  let reasons :=
    if any (fun word => contains word text_lower) issue_keywords
    then reasons ++ ["property issue keywords detected"] else reasons in
  let reasons :=
    if any (fun word => contains word text_lower) tenancy_keywords
    then reasons ++ ["tenancy-related terms found"] else reasons in
  match reasons with
  | [] => ["request needs clarification"]
  | _ :: _ => reasons
  end.

Definition get_routing_explanation (text : string) (has_image : bool)
    (chosen_agent : string) : result string :=
  let reasons := routing_reasons text has_image in
  header ← od_getitem explanations chosen_agent;
  mret (header +:+ join ", " reasons).

End RouterAnalysis.

Module RouterAnalysisFacts.
Import PyStr PyStrFacts AgentRouter RouterFacts RouterAnalysis.
Module CM := ConversationManager.

Section OrderedDictSet.
Context {V : Type}.
Implicit Types d : list (string * V).

Lemma od_get_set_eq d k v : od_get (od_set d k v) k = Some v.
Proof.
  induction d as [|[k' w] d IH]; simpl.
  - by rewrite String.eqb_refl.
  - destruct (String.eqb_spec k' k) as [->|Hne]; simpl.
    + by rewrite String.eqb_refl.
    + by destruct (String.eqb_spec k' k).
Qed.

Lemma od_get_set_ne d k k' v :
  k <> k' -> od_get (od_set d k v) k' = od_get d k'.
Proof.
  intros Hne. induction d as [|[k0 w] d IH]; simpl.
  - by destruct (String.eqb_spec k k').
  - destruct (String.eqb_spec k0 k) as [->|Hk]; simpl.
    + by destruct (String.eqb_spec k k').
    + by rewrite IH.
Qed.

Lemma od_keys_set_prefix d k v : od_keys d `prefix_of` od_keys (od_set d k v).
Proof.
  unfold od_keys. induction d as [|[k0 w] d IH]; simpl.
  - apply prefix_nil.
  - destruct (String.eqb k0 k); simpl; [done|]. by apply prefix_cons.
Qed.

Lemma od_get_Some_key d k v : od_get d k = Some v -> k ∈ od_keys d.
Proof.
  unfold od_keys. induction d as [|[k0 w] d IH]; simpl; [done|].
  destruct (String.eqb_spec k0 k) as [->|Hk]; [left|]. intros H. right. auto.
Qed.
End OrderedDictSet.

(** The message is counted for agent [a]: a bot message whose agent is the
    non-empty name [a]. *)
Definition counted (a : string) (msg : CM.message) : bool :=
  String.eqb (CM.msg_type msg) "bot" && CM.str_truthy (CM.agent msg)
  && bool_decide (CM.agent msg = Some a).

(** The number of messages counted for agent [a]. *)
Definition bot_count (a : string) (messages : list CM.message) : Z :=
  sum_ones (counted a) messages.

Ltac usage_cases d a :=
  destruct (od_get d a); simpl;
  repeat match goal with
    | |- context [Z.eqb ?x ?y] => destruct (Z.eqb_spec x y)
    end;
  try done; try lia; try (f_equal; lia).

Lemma usage_loop_get messages d a :
  od_get (usage_loop messages d) a =
  match od_get d a with
  | Some n => Some (n + bot_count a messages)
  | None =>
      if bot_count a messages =? 0 then None else Some (bot_count a messages)
  end.
Proof.
  revert d. induction messages as [|msg rest IH]; intros d.
  - unfold bot_count. simpl. destruct (od_get d a); [f_equal; lia|done].
  - pose proof (sum_ones_nonneg (counted a) rest) as Hnn.
    change (usage_loop (msg :: rest) d) with
      (usage_loop rest
        (match CM.agent msg with
         | Some b =>
             if String.eqb (CM.msg_type msg) "bot" && CM.str_truthy (Some b)
             then od_set d b (default 0 (od_get d b) + 1)
             else d
         | None => d
         end)).
    rewrite IH.
    change (bot_count a (msg :: rest))
      with ((if counted a msg then 1 else 0) + bot_count a rest).
    fold (bot_count a rest) in Hnn. revert Hnn.
    generalize (bot_count a rest). intros c Hc. unfold counted.
    destruct (CM.agent msg) as [b|] eqn:Hb; simpl;
      [|rewrite andb_false_r; usage_cases d a].
    destruct (String.eqb (CM.msg_type msg) "bot"); simpl; [|usage_cases d a].
    destruct b as [|x b]; simpl; [usage_cases d a|].
    destruct (decide (String x b = a)) as [<-|Hne].
    + rewrite od_get_set_eq, bool_decide_eq_true_2 by done. usage_cases d (String x b).
    + rewrite od_get_set_ne by done.
      rewrite bool_decide_eq_false_2 by congruence. usage_cases d a.
Qed.

Lemma usage_loop_keys messages d :
  od_keys d `prefix_of` od_keys (usage_loop messages d).
Proof.
  revert d. induction messages as [|msg rest IH]; intros d; simpl; [done|].
  etrans; [|apply IH].
  destruct (CM.agent msg) as [b|]; [|done].
  destruct (_ && _); [apply od_keys_set_prefix | done].
Qed.

Lemma od_get_key_Some {V} (d : list (string * V)) k :
  k ∈ od_keys d -> exists v, od_get d k = Some v.
Proof.
  unfold od_keys. induction d as [|[k0 w] d IH]; simpl;
    [intros H; inversion H|].
  destruct (String.eqb_spec k0 k) as [->|Hk]; [eauto|].
  intros [->|H]%elem_of_cons; [done | auto].
Qed.

(** The names that [agent_usage] and [explanations] start from. *)
Definition agent_names : list string := ["agent1"; "agent2"; "router"].

Lemma analyze_eq messages :
  exists ks,
    od_keys (usage_loop messages initial_usage)
      = "agent1" :: "agent2" :: "router" :: ks
    /\ analyze_conversation_flow messages =
       Returned
         {| agent_usage := usage_loop messages initial_usage;
            total_messages := Z.of_nat (length messages);
            dominant_agent :=
              max_by (fun a => default 0
                        (od_get (usage_loop messages initial_usage) a))
                "agent1" ("agent2" :: "router" :: ks);
            conversation_type :=
              if bot_count "agent1" messages >? bot_count "agent2" messages
              then "issue_focused"
              else if bot_count "agent2" messages >? bot_count "agent1" messages
              then "tenancy_focused" else "mixed" |}.
Proof.
  destruct (usage_loop_keys messages initial_usage) as [ks Hks].
  exists ks. split; [done|].
  unfold analyze_conversation_flow. rewrite Hks. simpl.
  unfold _determine_conversation_type, od_getitem.
  by rewrite !usage_loop_get.
Qed.

(** X5: [analyze_conversation_flow] never raises; it reports the number of
    messages, and for every agent name the number of bot messages that name
    it: the three fixed names are always present (with zero when unused),
    any other name exactly when some bot message names it. *)
Theorem analyze_flow_counts messages :
  exists r, analyze_conversation_flow messages = Returned r
    /\ total_messages r = Z.of_nat (length messages)
    /\ (forall a, a ∈ agent_names ->
          od_get (agent_usage r) a = Some (bot_count a messages))
    /\ (forall a, a ∉ agent_names ->
          od_get (agent_usage r) a =
          if bot_count a messages =? 0 then None
          else Some (bot_count a messages)).
Proof.
  destruct (analyze_eq messages) as (ks & Hks & ->).
  eexists. split; [reflexivity|]. simpl. split; [done|].
  split; intros a Ha; rewrite usage_loop_get.
  - unfold agent_names in Ha.
    repeat (apply elem_of_cons in Ha as [->|Ha]; [done|]). inversion Ha.
  - assert (od_get initial_usage a = None) as ->; [|done].
    destruct (od_get initial_usage a) eqn:Hg; [|done].
    apply od_get_Some_key in Hg. done.
Qed.

(** X6: the dominant agent is a key of [agent_usage] whose count no other
    key exceeds; the conversation type compares the counts of the two
    specialists only; the tenancy agent is dominant only in a
    tenancy-focused conversation, the issue agent never in one; and a
    conversation without messages is mixed with the issue agent reported as
    dominant. *)
Theorem analyze_flow_dominant messages :
  exists r, analyze_conversation_flow messages = Returned r
    /\ (exists m, od_get (agent_usage r) (dominant_agent r) = Some m
          /\ forall a n, od_get (agent_usage r) a = Some n -> n <= m)
    /\ (conversation_type r = "issue_focused" <->
        bot_count "agent2" messages < bot_count "agent1" messages)
    /\ (conversation_type r = "tenancy_focused" <->
        bot_count "agent1" messages < bot_count "agent2" messages)
    /\ (conversation_type r = "mixed" <->
        bot_count "agent1" messages = bot_count "agent2" messages)
    /\ (dominant_agent r = "agent2" -> conversation_type r = "tenancy_focused")
    /\ (dominant_agent r = "agent1" -> conversation_type r <> "tenancy_focused")
    /\ (messages = [] ->
        dominant_agent r = "agent1" /\ conversation_type r = "mixed").
Proof.
  destruct (analyze_eq messages) as (ks & Hks & ->).
  eexists. split; [reflexivity|].
  cbn [agent_usage total_messages dominant_agent conversation_type].
  set (usage := usage_loop messages initial_usage) in *.
  set (keyf := fun a => default 0 (od_get usage a)).
  pose proof (max_by_first_max keyf "agent1" ("agent2" :: "router" :: ks)) as Hm.
  set (dom := max_by keyf "agent1" ("agent2" :: "router" :: ks)) in *.
  rewrite <- Hks in Hm.
  assert (H1 : keyf "agent1" = bot_count "agent1" messages)
    by (unfold keyf, usage; by rewrite usage_loop_get).
  assert (H2 : keyf "agent2" = bot_count "agent2" messages)
    by (unfold keyf, usage; by rewrite usage_loop_get).
  split; [|split; [|split; [|split; [|split; [|split]]]]].
  - assert (Hdom : dom ∈ od_keys usage).
    { destruct Hm as (pre & post & -> & _). set_solver. }
    apply od_get_key_Some in Hdom as [m Hget]. exists m. split; [done|].
    intros a n Ha.
    pose proof (is_first_max_bound keyf _ _ a Hm (od_get_Some_key _ _ _ Ha)) as Hb.
    unfold keyf in Hb. rewrite Ha, Hget in Hb. done.
  - zcases; split; intros; (done || lia).
  - zcases; split; intros; (done || lia).
  - zcases; split; intros; (done || lia).
  - intros Hd. fold keyf dom in Hd. rewrite Hd in Hm.
    destruct Hm as (pre & post & Heq & Hpre & _).
    rewrite Hks in Heq. destruct pre as [|p pre]; [done|].
    injection Heq as <- _.
    assert (keyf "agent1" < keyf "agent2") by (apply Hpre; left).
    rewrite H1, H2 in *. zcases.
  - intros Hd. fold keyf dom in Hd. rewrite Hd in Hm.
    assert (keyf "agent2" <= keyf "agent1").
    { apply (is_first_max_bound keyf _ _ _ Hm). rewrite Hks. set_solver. }
    rewrite H1, H2 in *. zcases.
  - intros Hnil. clear Hm H1 H2. subst dom keyf usage. subst messages.
    simpl in Hks. injection Hks as <-. by vm_compute.
Qed.

Lemma sum_ones_any {A} (p : A -> bool) xs :
  sum_ones p xs = 0 <-> any p xs = false.
Proof.
  rewrite sum_ones_zero. split.
  - intros H. destruct (any p xs) eqn:Ha; [|done].
    apply any_spec in Ha as (x & Hx & Hc). rewrite (H x Hx) in Hc. done.
  - intros Ha x Hx. destruct (p x) eqn:Hc; [|done].
    assert (any p xs = true) by (apply any_spec; eauto). congruence.
Qed.

(** Decide an equivalence between membership in an explicit list and a
    closed condition. *)
Ltac mem_decide :=
  split;
  [ let Hin := fresh in
    intros Hin; try done; try (repeat split; done);
    apply (bool_decide_pack _) in Hin; done
  | let Hp := fresh in
    intros Hp; try done; try (destruct Hp as (? & ? & ?); done);
    apply (bool_decide_unpack _); done ].

Lemma explanations_get chosen_agent :
  chosen_agent ∈ agent_names <-> is_Some (od_get explanations chosen_agent).
Proof.
  split.
  - unfold agent_names. intros Ha.
    repeat (apply elem_of_cons in Ha as [->|Ha]; [by eexists|]). inversion Ha.
  - intros [v Hv]. by apply od_get_Some_key in Hv.
Qed.

(** X7: [get_routing_explanation] returns a text for the three agent names
    and raises [KeyError] for every other name.  So every decision
    [route_request] takes without a sticky agent, or with one of the three
    names as sticky agent, can be explained, whereas a tie answered by a
    sticky agent of another name cannot. *)
Theorem routing_explanation_defined text has_image :
  (forall chosen_agent,
     chosen_agent ∈ agent_names ->
     exists header,
       od_get explanations chosen_agent = Some header
       /\ get_routing_explanation text has_image chosen_agent
          = Ok (header +:+ join ", " (routing_reasons text has_image)))
  /\ (forall chosen_agent,
        chosen_agent ∉ agent_names ->
        get_routing_explanation text has_image chosen_agent
        = Raise (KeyError chosen_agent))
  /\ (forall context decision,
        route_request text has_image context = Ok decision ->
        RouterSpec.last_agent context = None
        \/ (exists a, a ∈ agent_names
              /\ RouterSpec.last_agent context = Some (PyStr a)) ->
        exists a explanation,
          decision = PyStr a
          /\ get_routing_explanation text has_image a = Ok explanation)
  /\ (forall context name,
        issue_score text = tenancy_score text -> issue_score text > 0 ->
        RouterSpec.last_agent context = Some (PyStr name) ->
        name ∉ agent_names ->
        route_request text false context = Ok (PyStr name)
        /\ get_routing_explanation text false name = Raise (KeyError name)).
Proof.
  assert (Hok : forall a, a ∈ agent_names ->
            exists header, od_get explanations a = Some header
              /\ get_routing_explanation text has_image a
                 = Ok (header +:+ join ", " (routing_reasons text has_image))).
  { intros a [header Hh]%explanations_get. exists header. split; [done|].
    unfold get_routing_explanation, od_getitem. by rewrite Hh. }
  assert (Hraise : forall b a, a ∉ agent_names ->
            get_routing_explanation text b a = Raise (KeyError a)).
  { intros b a Ha. unfold get_routing_explanation, od_getitem.
    destruct (od_get explanations a) eqn:Hg; [|done].
    destruct Ha. apply explanations_get. eauto. }
  split; [done|]. split; [apply Hraise|]. split.
  - intros context decision Hr Hctx.
    assert (exists a, a ∈ agent_names /\ decision = PyStr a) as (a & Ha & ->).
    { assert (H1 : "agent1" ∈ agent_names) by (apply (bool_decide_unpack _); done).
      assert (H2 : "agent2" ∈ agent_names) by (apply (bool_decide_unpack _); done).
      assert (H3 : "router" ∈ agent_names) by (apply (bool_decide_unpack _); done).
      destruct has_image.
      - injection Hr as <-. by exists "agent1".
      - rewrite route_request_text in Hr. injection Hr as <-.
        assert (exists a, a ∈ agent_names
                  /\ default router (RouterSpec.last_agent context) = PyStr a)
          as (a & Ha & ->)
          by (destruct Hctx as [->|(a & Ha & ->)]; [by exists "router" | by exists a]).
        generalize (tenancy_score text) (issue_score text). intros t i.
        destruct (t >? i); [by exists "agent2"|].
        destruct (i >? t); [by exists "agent1"|].
        destruct (i >? 0); [by exists a | by exists "router"]. }
    destruct (Hok a Ha) as (header & _ & He). eauto.
  - intros context name Htie Hpos Hctx Hname. split; [|by apply Hraise].
    rewrite route_request_text, Hctx. zcases.
Qed.

(** X8: the reasons of an explanation are never empty; the image is named
    exactly when there is one, each kind of keyword exactly when a keyword of
    that list occurs in the lower-cased text, and the need to clarify exactly
    when there is neither an image nor any keyword.  The reasons look at
    keywords only, not at patterns: a text that is routed to the issue agent
    by a pattern alone is explained as needing clarification. *)
Theorem routing_reasons_spec text has_image :
  routing_reasons text has_image <> []
  /\ ("image uploaded for analysis" ∈ routing_reasons text has_image <->
      has_image = true)
  /\ ("property issue keywords detected" ∈ routing_reasons text has_image <->
      exists kw, kw ∈ issue_keywords /\ contains kw (lower text) = true)
  /\ ("tenancy-related terms found" ∈ routing_reasons text has_image <->
      exists kw, kw ∈ tenancy_keywords /\ contains kw (lower text) = true)
  /\ ("request needs clarification" ∈ routing_reasons text has_image <->
      has_image = false
      /\ keyword_score issue_keywords (lower text) = 0
      /\ keyword_score tenancy_keywords (lower text) = 0)
  /\ route_request "What's wrong with my sink?" false None = Ok agent1
  /\ routing_reasons "What's wrong with my sink?" false
     = ["request needs clarification"].
Proof.
  split; [|split; [|split; [|split; [|split; [|split; by vm_compute]]]]].
  - unfold routing_reasons.
    by destruct has_image, (any _ issue_keywords), (any _ tenancy_keywords).
  - unfold routing_reasons.
    destruct has_image, (any _ issue_keywords), (any _ tenancy_keywords);
      simpl; mem_decide.
  - rewrite <- any_spec. unfold routing_reasons.
    destruct has_image, (any _ issue_keywords), (any _ tenancy_keywords);
      simpl; mem_decide.
  - rewrite <- any_spec. unfold routing_reasons.
    destruct has_image, (any _ issue_keywords), (any _ tenancy_keywords);
      simpl; mem_decide.
  - unfold keyword_score. rewrite !sum_ones_any. unfold routing_reasons.
    destruct has_image, (any _ issue_keywords), (any _ tenancy_keywords);
      simpl; mem_decide.
Qed.

End RouterAnalysisFacts.

(** ** issue_detection_agent.py: follow-up questions and repair
       timelines *)

Module IssueFollowUp.
Module I := IssueDetectionAgent.

(** The dictionary [questions_db] of [_get_diagnostic_questions]. *)
Definition questions_db : list (string * list string) :=
  [ ("water_damage",
      [ "Is the water damage still actively spreading?";
        "Can you locate the source of the water?";
        "Is there a musty odor in the area?";
        "How long has this damage been present?" ]);
    ("structural_damage",
      [ "Are the cracks getting larger over time?";
        "Do doors or windows stick in this area?";
        "Is the crack wider than a coin?";
        "Are there multiple cracks in the same area?" ]);
    ("mold_growth",
      [ "What color is the growth you're seeing?";
        "Is there a musty smell in the room?";
        "Is the area frequently damp or humid?";
        "How large is the affected area?" ]);
    ("electrical_issues",
      [ "Are circuit breakers tripping frequently?";
        "Do you smell burning or see sparks?";
        "Are outlets warm to the touch?";
        "Do lights flicker when appliances turn on?" ]);
    ("plumbing_issues",
      [ "Is water pressure affected throughout the house?";
        "Can you hear water running when all taps are off?";
        "Is the issue getting worse over time?";
        "Are multiple fixtures affected?" ]);
    ("cosmetic_damage",
      [ "Is the damage affecting the underlying material?";
        "How large is the affected area?";
        "Is the damage spreading or stable?";
        "Do you know what caused the damage?" ]) ].

(** The default of [questions_db.get]. *)
Definition general_questions : list string :=
  [ "Can you describe the issue in more detail?";
    "When did you first notice this problem?";
    "Has the issue changed or worsened recently?" ].

Definition _get_diagnostic_questions (issue_type : string) : list string :=
  default general_questions (od_get questions_db issue_type).

(** The questions [get_follow_up_questions] adds for a severe issue. *)
Definition severe_questions : list string :=
  [ "Do you need emergency professional assistance?";
    "Is the issue affecting other areas of the property?";
    "Are there any safety concerns for occupants?" ].

Definition get_follow_up_questions (issue_type severity : string)
    : list string :=
  let base_questions := _get_diagnostic_questions issue_type in
  let base_questions :=
    if String.eqb severity "severe" then base_questions ++ severe_questions
    else base_questions in
  take 5 base_questions.

(** The dictionary [timelines] of [estimate_repair_timeline]. *)
Definition timelines : list (string * list (string * string)) :=
  [ ("water_damage",
      [("minor", "1-2 days"); ("moderate", "3-7 days"); ("severe", "1-3 weeks")]);
    ("structural_damage",
      [("minor", "1 day"); ("moderate", "1-2 weeks"); ("severe", "2-8 weeks")]);
    ("mold_growth",
      [("minor", "1-3 days"); ("moderate", "1-2 weeks"); ("severe", "2-4 weeks")]);
    ("electrical_issues",
      [("minor", "2-4 hours"); ("moderate", "1-2 days"); ("severe", "3-7 days")]);
    ("plumbing_issues",
      [("minor", "1-4 hours"); ("moderate", "1-2 days"); ("severe", "2-5 days")]);
    ("cosmetic_damage",
      [("minor", "2-6 hours"); ("moderate", "1-3 days"); ("severe", "1-2 weeks")]) ].

Definition no_timeline : string := "Timeline varies - consult professional".

Definition estimate_repair_timeline (issue_type severity : string) : string :=
  default no_timeline
    (od_get (default [] (od_get timelines issue_type)) severity).

(** The strings that [_determine_severity] returns. *)
Definition severity_str (s : I.severity) : string :=
  match s with
  | I.Minor => "minor"
  | I.Moderate => "moderate"
  | I.Severe => "severe"
  end.

End IssueFollowUp.

Module IssueFollowUpFacts.
Import IssueFollowUp RouterAnalysisFacts ConfidenceFacts.
Module I := IssueDetectionAgent.

Lemma od_get_None {V} (d : list (string * V)) k :
  k ∉ od_keys d -> od_get d k = None.
Proof.
  intros Hk. destruct (od_get d k) eqn:Hg; [|done].
  by apply od_get_Some_key in Hg.
Qed.

Definition safety_question : string :=
  "Are there any safety concerns for occupants?".

Lemma questions_lookup issue_type :
  (issue_type ∈ od_keys I.issue_database
   /\ (exists q1 q2 q3 q4,
         od_get questions_db issue_type = Some [q1; q2; q3; q4]
         /\ safety_question ∉ [q1; q2; q3; q4]))
  \/ ((issue_type ∉ od_keys I.issue_database)
      /\ od_get questions_db issue_type = None).
Proof.
  destruct (decide (issue_type ∈ od_keys I.issue_database)) as [Hin|Hout].
  - left. split; [done|]. unfold od_keys, I.issue_database in Hin.
    simpl in Hin.
    repeat (apply elem_of_cons in Hin as [->|Hin];
      [eexists _, _, _, _; split; [reflexivity|];
       apply (bool_decide_unpack _); by vm_compute|]).
    inversion Hin.
  - right. split; [done|]. by apply od_get_None.
Qed.

(** X9: the follow-up questions start with the diagnostic questions of the
    issue type (four for a type of the issue database, the three general
    ones otherwise) and are these alone unless the severity is ['severe'];
    for a severe issue the cut to five questions leaves room for one
    emergency question after the four of a known type and for two after the
    three general ones, so the question about the safety of the occupants is
    never asked. *)
Theorem follow_up_questions_spec issue_type severity :
  length (_get_diagnostic_questions issue_type)
    = (if decide (issue_type ∈ od_keys I.issue_database) then 4 else 3)%nat
  /\ (severity <> "severe" ->
      get_follow_up_questions issue_type severity
      = _get_diagnostic_questions issue_type)
  /\ (issue_type ∈ od_keys I.issue_database ->
      get_follow_up_questions issue_type "severe"
      = _get_diagnostic_questions issue_type
        ++ ["Do you need emergency professional assistance?"])
  /\ (issue_type ∉ od_keys I.issue_database ->
      get_follow_up_questions issue_type "severe"
      = general_questions
        ++ ["Do you need emergency professional assistance?";
            "Is the issue affecting other areas of the property?"])
  /\ (safety_question ∉ get_follow_up_questions issue_type severity)
  /\ (length (get_follow_up_questions issue_type severity) <= 5)%nat.
Proof.
  unfold get_follow_up_questions, _get_diagnostic_questions.
  destruct (questions_lookup issue_type)
    as [(Hin & q1 & q2 & q3 & q4 & -> & Hs)|(Hout & ->)]; simpl.
  - rewrite decide_True by done. split; [done|]. split.
    { intros Hne. by destruct (String.eqb_spec severity "severe"). }
    split; [done|]. split; [done|].
    split; [|destruct (String.eqb severity "severe"); simpl; lia].
    destruct (String.eqb severity "severe"); simpl; [|done].
    intros Hq.
    change (safety_question
            ∈ [q1; q2; q3; q4]
              ++ ["Do you need emergency professional assistance?"]) in Hq.
    apply elem_of_app in Hq as [Hq|Hq]; [done|].
    apply (bool_decide_pack _) in Hq. done.
  - rewrite decide_False by done. split; [done|]. split.
    { intros Hne. by destruct (String.eqb_spec severity "severe"). }
    split; [done|]. split; [done|].
    split; [|destruct (String.eqb severity "severe"); simpl; lia].
    destruct (String.eqb severity "severe"); simpl;
      intros Hq; apply (bool_decide_pack _) in Hq; done.
Qed.

Lemma timelines_lookup issue_type :
  (issue_type ∈ od_keys I.issue_database
   /\ (exists t1 t2 t3,
         od_get timelines issue_type
           = Some [("minor", t1); ("moderate", t2); ("severe", t3)]
         /\ t1 <> no_timeline /\ t2 <> no_timeline /\ t3 <> no_timeline))
  \/ ((issue_type ∉ od_keys I.issue_database)
      /\ od_get timelines issue_type = None).
Proof.
  destruct (decide (issue_type ∈ od_keys I.issue_database)) as [Hin|Hout].
  - left. split; [done|]. unfold od_keys, I.issue_database in Hin.
    simpl in Hin.
    repeat (apply elem_of_cons in Hin as [->|Hin];
      [eexists _, _, _; split; [reflexivity|]; by repeat split|]).
    inversion Hin.
  - right. split; [done|]. by apply od_get_None.
Qed.

Lemma detect_loop_type items tl p :
  p ∈ I.detect_loop items tl -> I.type p ∈ od_keys items.
Proof.
  unfold od_keys.
  induction items as [|[issue_type info] items IH]; simpl;
    [intros Hp; inversion Hp|].
  destruct (I.keyword_matches tl info >? 0).
  - intros [->|Hp]%elem_of_cons; [left | right; auto].
  - intros Hp. right. auto.
Qed.

Lemma simulate_type db description p :
  p ∈ I._simulate_image_analysis db description -> I.type p ∈ od_keys db.
Proof.
  unfold I._simulate_image_analysis. intros Hp.
  apply subseteq_take, sort_reverse_elem in Hp. by eapply detect_loop_type.
Qed.

(** X10: [estimate_repair_timeline] never raises; it answers with the
    fallback text for an issue type outside the issue database and for a
    severity other than the three levels, and with a timeline of its own for
    every type of the database at every level that [_determine_severity] can
    return.  So every issue that the image analysis reports has a timeline
    and four diagnostic questions of its own. *)
Theorem repair_timeline_spec :
  (forall issue_type severity,
     issue_type ∉ od_keys I.issue_database ->
     estimate_repair_timeline issue_type severity = no_timeline)
  /\ (forall issue_type severity,
        severity ∉ ["minor"; "moderate"; "severe"] ->
        estimate_repair_timeline issue_type severity = no_timeline)
  /\ (forall issue_type description,
        issue_type ∈ od_keys I.issue_database ->
        estimate_repair_timeline issue_type
          (severity_str (I._determine_severity description issue_type))
        <> no_timeline)
  /\ (forall description p,
        p ∈ I._simulate_image_analysis I.issue_database description ->
        estimate_repair_timeline (I.type p) (severity_str (I.det_severity p))
          <> no_timeline
        /\ length (_get_diagnostic_questions (I.type p)) = 4%nat).
Proof.
  assert (Hknown : forall issue_type s,
            issue_type ∈ od_keys I.issue_database ->
            estimate_repair_timeline issue_type (severity_str s) <> no_timeline).
  { intros issue_type s Hin. unfold estimate_repair_timeline.
    destruct (timelines_lookup issue_type)
      as [(_ & t1 & t2 & t3 & -> & H1 & H2 & H3)|[Hout _]]; [|done].
    by destruct s. }
  split; [|split; [|split]].
  - intros issue_type severity Hout. unfold estimate_repair_timeline.
    by destruct (timelines_lookup issue_type) as [[Hin _]|[_ ->]].
  - intros issue_type severity Hs. unfold estimate_repair_timeline.
    destruct (timelines_lookup issue_type)
      as [(_ & t1 & t2 & t3 & -> & _)|[_ ->]]; [|done].
    rewrite od_get_None; [done|]. done.
  - intros issue_type description Hin. by apply Hknown.
  - intros description p Hp. apply simulate_type in Hp. split.
    + by apply Hknown.
    + unfold _get_diagnostic_questions.
      by destruct (questions_lookup (I.type p))
        as [(_ & q1 & q2 & q3 & q4 & -> & _)|[Hout _]].
Qed.

End IssueFollowUpFacts.

(** ** The two agents as a whole *)

Module ProcessFacts.
Import PyStr PyStrFacts TopicFacts ConfidenceFacts.

(** What the loop of [_simulate_image_analysis] records for a table
    entry. *)
Definition d_pos (description_lower : string) (e : string * I.issue_info)
    : option I.detected_issue :=
  let keyword_matches := I.keyword_matches description_lower e.2 in
  if keyword_matches >? 0 then
    Some {| I.type := e.1;
            I.confidence := I.detection_confidence keyword_matches;
            I.det_severity := I._determine_severity description_lower e.1;
            I.keywords_matched := keyword_matches |}
  else None.

Lemma detect_loop_omap items tl :
  I.detect_loop items tl = omap (d_pos tl) items.
Proof.
  induction items as [|[issue_type info] items IH]; [done|].
  assert (Hp : d_pos tl (issue_type, info) =
            if I.keyword_matches tl info >? 0
            then Some {| I.type := issue_type;
                         I.confidence :=
                           I.detection_confidence (I.keyword_matches tl info);
                         I.det_severity := I._determine_severity tl issue_type;
                         I.keywords_matched := I.keyword_matches tl info |}
            else None) by done.
  simpl. rewrite Hp, IH. by destruct (I.keyword_matches tl info >? 0).
Qed.

Lemma insert_desc_cons {A K} (key : A -> K) lt x sorted :
  exists y rest, insert_desc key lt x sorted = y :: rest.
Proof. destruct sorted; simpl; [eauto|]. case_match; eauto. Qed.

Lemma sort_reverse_cons {A K} (key : A -> K) lt x xs :
  exists y rest, sort_reverse key lt (x :: xs) = y :: rest.
Proof. simpl. apply insert_desc_cons. Qed.

Lemma simulate_nil db description :
  I._simulate_image_analysis db description = [] <->
  I.detect_loop db (lower description) = [].
Proof.
  unfold I._simulate_image_analysis.
  destruct (I.detect_loop db (lower description)) as [|p ps]; [done|].
  destruct (sort_reverse_cons I.confidence PrimFloat.ltb p ps) as (y & rest & ->).
  done.
Qed.

Lemma detect_loop_nil items tl :
  I.detect_loop items tl = [] <->
  forall e, e ∈ items -> I.keyword_matches tl e.2 = 0.
Proof.
  induction items as [|[issue_type info] items IH]; simpl.
  - split; [intros _ e He; inversion He | done].
  - pose proof (sum_ones_nonneg (fun kw => contains kw tl) (I.keywords info)).
    fold (I.keyword_matches tl info) in H. rewrite Z.gtb_ltb.
    destruct (Z.ltb_spec 0 (I.keyword_matches tl info)).
    + split; [done|]. intros Hall.
      specialize (Hall (issue_type, info) (list_elem_of_here _ _)).
      simpl in Hall. lia.
    + rewrite IH. split.
      * intros Hall e [->|He]%elem_of_cons; [simpl; lia | auto].
      * intros Hall e He. apply Hall. by right.
Qed.

Lemma issue_confidence_floor p others description_length :
  as_detected p ->
  fle 0.6 (I._calculate_confidence (p :: others) description_length).
Proof.
  destruct p as [t c s k]. unfold as_detected. simpl. intros [Hk ->].
  destruct (description_length >? 50), (description_length <? 10),
    (Z.of_nat (S (length others)) >? 1);
    count_cases k; by vm_compute.
Qed.

(** X11: the confidence that the issue agent's [process_request] returns
    lies between 0.5 and 0.95 for every table, text and image flag, so the
    value 0.3 of [_calculate_confidence] for an empty list is never
    returned.  Over the program's table it is at least 0.6 with an image,
    and exactly 0.5 only for a text without image in which no keyword of the
    table occurs. *)
Theorem issue_process_request_confidence db text has_image :
  fle 0.5 (I.process_request db text has_image).2
  /\ fle (I.process_request db text has_image).2 0.95
  /\ (I.process_request db text has_image).2 <> 0.3%float
  /\ fle 0.6 (I.process_request I.issue_database text true).2
  /\ ((I.process_request I.issue_database text has_image).2 = 0.5%float <->
      has_image = false
      /\ forall e, e ∈ I.issue_database ->
           I.keyword_matches (lower text) e.2 = 0).
Proof.
  assert (Hrange : forall db' b,
            fle 0.5 (I.process_request db' text b).2
            /\ fle (I.process_request db' text b).2 0.95).
  { intros db' b. unfold I.process_request. destruct b.
    - unfold I._analyze_image_with_context.
      destruct (I._simulate_image_analysis db' text) as [|p ps] eqn:Hs;
        [by vm_compute|].
      by apply issue_confidence_range.
    - rewrite analyze_text_eq. by destruct (omap _ _); vm_compute. }
  assert (Himage : fle 0.6 (I.process_request I.issue_database text true).2).
  { unfold I.process_request, I._analyze_image_with_context.
    destruct (I._simulate_image_analysis I.issue_database text) as [|p ps] eqn:Hs;
      [by vm_compute|].
    apply issue_confidence_floor. apply (simulate_as_detected text).
    rewrite Hs. left. }
  split; [apply Hrange|]. split; [apply Hrange|]. split.
  - intros Heq. destruct (Hrange db has_image) as [Hlo _].
    rewrite Heq in Hlo. by vm_compute in Hlo.
  - split; [done|]. destruct has_image.
    + split; [|by intros [? _]]. intros Heq. rewrite Heq in Himage.
      by vm_compute in Himage.
    + unfold I.process_request. rewrite <- analyze_text_general.
      rewrite analyze_text_eq. destruct (omap _ _); simpl.
      * split; [done|]. by intros [_ _].
      * split; [intros Heq; by vm_compute in Heq | by intros [_ [=]]].
Qed.

(** X12: the two analyses of the issue agent agree on whether anything was
    found: the image analysis answers that there are no issues exactly when
    the text analysis answers with the general guidance, which is when no
    keyword of the table occurs in the lower-cased text. *)
Theorem analyses_agree_on_nothing db text :
  ((I._analyze_image_with_context db text).1 = I.NoIssuesResponse <->
   forall e, e ∈ db -> I.keyword_matches (lower text) e.2 = 0)
  /\ ((I._analyze_text_description db text).1 = I.GeneralGuidanceResponse <->
      forall e, e ∈ db -> I.keyword_matches (lower text) e.2 = 0)
  /\ ((I._analyze_image_with_context db text).1 = I.NoIssuesResponse <->
      (I._analyze_text_description db text).1 = I.GeneralGuidanceResponse).
Proof.
  assert (Hi : (I._analyze_image_with_context db text).1 = I.NoIssuesResponse
               <-> forall e, e ∈ db -> I.keyword_matches (lower text) e.2 = 0).
  { rewrite <- detect_loop_nil, <- simulate_nil.
    unfold I._analyze_image_with_context.
    by destruct (I._simulate_image_analysis db text). }
  assert (Ht : (I._analyze_text_description db text).1
               = I.GeneralGuidanceResponse
               <-> forall e, e ∈ db -> I.keyword_matches (lower text) e.2 = 0).
  { rewrite <- (analyze_text_general db text), analyze_text_eq.
    by destruct (omap _ _). }
  split; [done|]. split; [done|]. by rewrite Hi, Ht.
Qed.

(** X13: over a table with distinct keys the tenancy agent's
    [process_request] never raises, and its confidence lies between 0.6 and
    0.95; it is exactly 0.6 when the general guidance is given, which is
    when no topic (or the topic with the empty name) is identified, and
    strictly above 0.6 when a topic is answered. *)
Theorem tenancy_process_request_spec legal_db text location :
  NoDup (od_keys legal_db) ->
  exists r c,
    T.process_request legal_db text location = Ok (r, c)
    /\ fle 0.6 c /\ fle c 0.95
    /\ (r = None <->
        T._identify_topic legal_db text = None
        \/ T._identify_topic legal_db text = Some "")
    /\ (r = None -> c = 0.6%float)
    /\ (forall topic, r = Some topic ->
          T._identify_topic legal_db text = Some topic
          /\ PrimFloat.ltb 0.6 c = true).
Proof.
  intros Hnd. unfold T.process_request.
  destruct (T._identify_topic legal_db text) as [[|x topic]|] eqn:Hid.
  - exists None, 0.6%float. repeat split; try done; auto.
  - destruct (identified_matches _ _ _ Hnd Hid) as (info & Hget & _).
    rewrite (calculate_confidence_eq _ _ _ _ _ Hget).
    destruct (adjust_range (T.keyword_matches text info) location)
      as (H6 & _ & H95 & Hlt).
    eexists _, _. split; [reflexivity|]. split; [done|]. split; [done|].
    split; [split; [done | by intros [|]]|]. split; [done|].
    by intros ? [= <-].
  - exists None, 0.6%float. repeat split; try done; auto.
Qed.

(** X13 on the program's table: an eviction question is answered, a
    greeting is not. *)
Lemma tenancy_process_request_witness :
  (exists r c,
     T.process_request T.legal_database "Can I be evicted?" None = Ok (r, c)
     /\ r = Some "eviction")
  /\ exists r c,
       T.process_request T.legal_database "hello" None = Ok (r, c)
       /\ r = None.
Proof.
  split.
  - destruct (tenancy_process_request_spec T.legal_database
                "Can I be evicted?" None legal_database_keys)
      as (r & c & Hp & _).
    exists r, c. split; [done|].
    assert (Some (r, c) = Some (Some "eviction", 0.65%float)) as [= -> _];
      [|done].
    assert (Ok (r, c) = Ok (Some "eviction", 0.65%float)) as [= -> ->];
      [|done].
    rewrite <- Hp. by vm_compute.
  - destruct (tenancy_process_request_spec T.legal_database "hello" None
                legal_database_keys) as (r & c & Hp & _ & _ & Hr & _).
    exists r, c. split; [done|]. apply Hr. left. by vm_compute.
Defined.

End ProcessFacts.

(** ** The primary issue of the image analysis *)

Module ImagePrimaryFacts.
Import PyStr PyStrFacts TopicFacts ConfidenceFacts ProcessFacts.

(** The keyword count as far as the detection confidence tells counts
    apart: four keywords and more give the same confidence 0.95. *)
Definition capped (keyword_matches : Z) : Z := Z.min keyword_matches 4.

Lemma ltb_capped p q :
  as_detected p -> as_detected q ->
  PrimFloat.ltb (I.confidence p) (I.confidence q)
  = Z.ltb (capped (I.keywords_matched p)) (capped (I.keywords_matched q)).
Proof.
  destruct p as [t1 c1 s1 k1], q as [t2 c2 s2 k2]. unfold as_detected. simpl.
  intros [Hk1 ->] [Hk2 ->]. count_cases k1; count_cases k2; by vm_compute.
Qed.

Section SortExt.
Context {A K1 K2 : Type} (key1 : A -> K1) (lt1 : K1 -> K1 -> bool)
  (key2 : A -> K2) (lt2 : K2 -> K2 -> bool).

Lemma insert_desc_ext x sorted :
  (forall y, y ∈ sorted -> lt1 (key1 x) (key1 y) = lt2 (key2 x) (key2 y)) ->
  insert_desc key1 lt1 x sorted = insert_desc key2 lt2 x sorted.
Proof.
  induction sorted as [|y sorted IH]; intros H; simpl; [done|].
  rewrite (H y) by left. rewrite IH; [done|]. intros z Hz. apply H. by right.
Qed.

Lemma sort_reverse_ext xs :
  (forall x y, x ∈ xs -> y ∈ xs ->
     lt1 (key1 x) (key1 y) = lt2 (key2 x) (key2 y)) ->
  sort_reverse key1 lt1 xs = sort_reverse key2 lt2 xs.
Proof.
  induction xs as [|x xs IH]; intros H; simpl; [done|].
  rewrite IH by (intros; apply H; by right).
  apply insert_desc_ext. intros y Hy%sort_reverse_elem.
  apply H; [left | by right].
Qed.
End SortExt.

Lemma is_first_max_ext {A} (key1 key2 : A -> Z) xs m :
  (forall y, y ∈ xs -> key1 y = key2 y) ->
  is_first_max key1 xs m -> is_first_max key2 xs m.
Proof.
  intros Hext (pre & post & -> & Hpre & Hpost). exists pre, post.
  split; [done|].
  assert (Hm : key1 m = key2 m) by (apply Hext; set_solver).
  split; intros y Hy; rewrite <- Hm, <- (Hext y) by set_solver; auto.
Qed.

Lemma d_pos_some tl e b :
  d_pos tl e = Some b ->
  capped (I.keywords_matched b) = capped (I.keyword_matches tl e.2)
  /\ 0 < capped (I.keyword_matches tl e.2).
Proof.
  unfold d_pos, capped. rewrite Z.gtb_ltb.
  destruct (Z.ltb_spec 0 (I.keyword_matches tl e.2)); [|done].
  intros [= <-]. simpl. lia.
Qed.

Lemma d_pos_none tl e :
  d_pos tl e = None -> capped (I.keyword_matches tl e.2) <= 0.
Proof.
  unfold d_pos, capped. rewrite Z.gtb_ltb.
  destruct (Z.ltb_spec 0 (I.keyword_matches tl e.2)); [done|]. lia.
Qed.

Lemma d_pos_type tl e b : d_pos tl e = Some b -> I.type b = e.1.
Proof. unfold d_pos. case_match; [|done]. by intros [= <-]. Qed.

(** The image analysis sorts by a key that only depends on the capped
    count. *)
Lemma simulate_sorted description :
  I._simulate_image_analysis I.issue_database description =
  take 3 (sort_reverse (fun p => capped (I.keywords_matched p)) Z.ltb
            (omap (d_pos (lower description)) I.issue_database)).
Proof.
  unfold I._simulate_image_analysis. rewrite <- detect_loop_omap. f_equal.
  apply sort_reverse_ext. intros p q Hp Hq.
  apply ltb_capped; (eapply detect_loop_as_detected; [|done]);
    intros e He; by apply issue_keywords_bound.
Qed.

Lemma image_primary_some description t :
  (exists p rest,
     I._simulate_image_analysis I.issue_database description = p :: rest
     /\ I.type p = t) ->
  exists info,
    best_entry (fun e => capped (I.keyword_matches (lower description) e.2))
      I.issue_database (t, info).
Proof.
  intros (p & rest & Hs & <-). rewrite simulate_sorted in Hs.
  destruct (sort_reverse _ _ _) as [|y sorted] eqn:Hsort; [done|].
  injection Hs as -> _. apply sort_reverse_head in Hsort.
  apply (first_max_omap
           (fun e => capped (I.keyword_matches (lower description) e.2))
           (fun p => capped (I.keywords_matched p))) in Hsort
    as (e & He & Hpos & Hmax);
    [|intros ? ?; apply d_pos_some | intros ?; apply d_pos_none].
  apply d_pos_type in He. destruct e as [k info]. exists info.
  rewrite He. done.
Qed.

(** X14: over the program's table the issue that the image analysis
    reports first is the first entry, in table order, whose keyword count
    capped at four is the greatest, that count being positive.  It is the
    issue that the text analysis names first whenever no entry counts more
    than four keywords; otherwise the two can differ, because the image
    analysis sorts by the confidence, which is 0.95 from four keywords
    on. *)
Theorem image_primary_issue description :
  (forall t,
     (exists p rest,
        I._simulate_image_analysis I.issue_database description = p :: rest
        /\ I.type p = t) <->
     exists info,
       best_entry (fun e => capped (I.keyword_matches (lower description) e.2))
         I.issue_database (t, info))
  /\ ((forall e, e ∈ I.issue_database ->
         I.keyword_matches (lower description) e.2 <= 4) ->
      forall t,
        (exists p rest,
           I._simulate_image_analysis I.issue_database description = p :: rest
           /\ I.type p = t) <->
        I.primary_type
          (I._analyze_text_description I.issue_database description).1
        = Some t)
  /\ (exists p rest,
        I._simulate_image_analysis I.issue_database
          "water leak, a wet stain; crack and hole in wall, ceiling, foundation"
          = p :: rest
        /\ I.type p = "water_damage")
  /\ I.primary_type
       (I._analyze_text_description I.issue_database
          "water leak, a wet stain; crack and hole in wall, ceiling, foundation").1
     = Some "structural_damage".
Proof.
  assert (Hiff : forall t,
    (exists p rest,
       I._simulate_image_analysis I.issue_database description = p :: rest
       /\ I.type p = t) <->
    exists info,
      best_entry (fun e => capped (I.keyword_matches (lower description) e.2))
        I.issue_database (t, info)).
  { intros t. split; [apply image_primary_some|]. intros [info Hbest].
    destruct (I._simulate_image_analysis I.issue_database description)
      as [|p rest] eqn:Hs.
    - exfalso. apply simulate_nil in Hs. rewrite detect_loop_nil in Hs.
      destruct Hbest as [Hpos (pre & post & Heq & _)].
      rewrite (Hs (t, info)) in Hpos; [done|]. rewrite Heq. set_solver.
    - exists p, rest. split; [done|].
      destruct (image_primary_some description (I.type p)) as [info' Hbest'].
      { exists p, rest. by rewrite Hs. }
      by injection (best_entry_unique _ _ _ _ Hbest Hbest') as ->. }
  split; [done|]. split; [|split; [|by vm_compute]].
  - intros Hle t. rewrite Hiff, primary_type_iff.
    split; intros [info [Hpos Hmax]]; exists info; (split;
      [|eapply is_first_max_ext; [|done]; intros y Hy; unfold capped;
        specialize (Hle y Hy); simpl; lia]).
    + unfold capped in Hpos. simpl in *. lia.
    + destruct Hmax as (pre & post & Heq & _).
      assert (I.keyword_matches (lower description) info <= 4)
        by (apply (Hle (t, info)); rewrite Heq; set_solver).
      unfold capped. simpl in *. lia.
  - eexists _, _. split; [by vm_compute | done].
Qed.

End ImagePrimaryFacts.

(** ** tenancy_faq_agent.py: location-specific information *)

Module TenancyLocation.
Import PyStr RouterAnalysis.
Module T := TenancyFAQAgent.

(** An entry of [location_specific_notes]. *)
Record loc_info : Type := {
  rent_control : bool;
  notice_period : string;
  deposit_limit : string;
  special_rules : list string
}.

Definition location_specific_notes : list (string * loc_info) :=
  [ ("california",
      {| rent_control := true;
         notice_period := "30 days (60 days for year+ tenancy)";
         deposit_limit := "2 months rent (unfurnished), 3 months (furnished)";
         special_rules := ["Just cause eviction requirements";
                           "Rent increase caps"] |});
    ("new_york",
      {| rent_control := true;
         notice_period := "30 days";
         deposit_limit := "1 month rent";
         special_rules := ["Rent stabilization laws";
                           "Security deposit interest required"] |});
    ("texas",
      {| rent_control := false;
         notice_period := "30 days";
         deposit_limit := "No state limit";
         special_rules := ["Property code requirements";
                           "Repair and deduct allowed"] |});
    ("florida",
      {| rent_control := false;
         notice_period := "15 days (week-to-week), 30 days (month-to-month)";
         deposit_limit := "No state limit";
         special_rules := ["3-day pay or quit notice";
                           "Hurricane evacuation protections"] |}) ].

(** The line feed of ["\n".join]. *)
Definition nl : string := String (ascii_of_nat 10) "".

(** The list [info_parts] built for the first known location found;
    characters outside ASCII stand as their UTF-8 bytes. *)
Definition info_parts (topic : string) (info : loc_info) : list string :=
  let parts :=
    if String.eqb topic "rent_increase" && rent_control info
    then ["• Rent control laws may limit increase amounts"] else [] in
  let parts :=
    if bool_decide (topic ∈ ["eviction"; "lease_termination"])
    then parts ++ ["• Standard notice period: " +:+ notice_period info]
    else parts in
  let parts :=
    if String.eqb topic "security_deposit"
    then parts ++ ["• Deposit limit: " +:+ deposit_limit info] else parts in
  match special_rules info with
  | [] => parts
  | _ :: _ =>
      (parts ++ ["• Special local rules apply:"])
      ++ ((fun rule => "  - " +:+ rule) <$> special_rules info)
  end.

(** The loop of [_get_location_specific_info]: the answer at the first key
    that occurs in the lower-cased location, if any. *)
Fixpoint location_loop (notes : list (string * loc_info))
    (location_lower topic : string) : option (option string) :=
  match notes with
  | [] => None
  | (loc_key, info) :: rest =>
      if contains loc_key location_lower then
        Some (match info_parts topic info with
              | [] => None
              | parts => Some (join nl parts)
              end)
      else location_loop rest location_lower topic
  end.

Definition generic_advice (location : string) : string :=
  "Please check local housing authority or tenant rights organizations in "
  +:+ location +:+ " for specific regulations.".

Definition _get_location_specific_info
    (notes : list (string * loc_info)) (location topic : string)
    : option string :=
  match location_loop notes (lower location) topic with
  | Some answer => answer
  | None => Some (generic_advice location)
  end.

End TenancyLocation.

Module TenancyLocationFacts.
Import PyStr RouterAnalysis TenancyLocation.
Module T := TenancyFAQAgent.

(** The answer built from an entry of the notes. *)
Definition answer (topic : string) (info : loc_info) : option string :=
  match info_parts topic info with
  | [] => None
  | parts => Some (join nl parts)
  end.

Lemma location_loop_none notes ll topic :
  any (fun l => contains l ll) (fst <$> notes) = false ->
  location_loop notes ll topic = None.
Proof.
  induction notes as [|[k info] notes IH]; simpl; [done|].
  destruct (contains k ll); [done | auto].
Qed.

Lemma location_loop_some notes ll topic :
  any (fun l => contains l ll) (fst <$> notes) = true ->
  exists pre key info post,
    notes = pre ++ (key, info) :: post
    /\ contains key ll = true
    /\ (forall e, e ∈ pre -> contains e.1 ll = false)
    /\ location_loop notes ll topic = Some (answer topic info).
Proof.
  induction notes as [|[k info] notes IH]; simpl; [done|].
  destruct (contains k ll) eqn:Hk.
  - intros _. exists [], k, info, notes. repeat split; try done.
    intros e He. inversion He.
  - intros Hany. destruct (IH Hany) as (pre & key & info' & post & -> & Hc & Hpre & ->).
    exists ((k, info) :: pre), key, info', post. repeat split; try done.
    intros e [->|He]%elem_of_cons; [done | auto].
Qed.

Lemma info_parts_nonempty topic info :
  special_rules info <> [] -> info_parts topic info <> [].
Proof.
  unfold info_parts. destruct (special_rules info) as [|r rs]; [done|].
  intros _ H. apply app_eq_nil in H as [H _].
  by apply app_eq_nil in H as [_ H].
Qed.

(** X15: [_get_location_specific_info] over the program's notes never
    returns [None].  When no key of the notes occurs in the lower-cased
    location it gives the generic advice, and the confidence of the answer
    gets no location bonus; otherwise it gives the lines built from the
    first entry, in table order, whose key occurs, and the confidence gets
    the bonus: the two functions recognise the same locations.  A location
    written "New York" is not recognised, the key being "new_york". *)
Theorem location_info_spec location topic :
  fst <$> location_specific_notes = T.location_specific_notes
  /\ _get_location_specific_info location_specific_notes location topic
     <> None
  /\ (any (fun l => contains l (lower location)) T.location_specific_notes
        = false ->
      _get_location_specific_info location_specific_notes location topic
        = Some (generic_advice location)
      /\ forall keyword_matches c rest,
           location = String c rest ->
           T.adjust keyword_matches (Some location)
           = T.adjust keyword_matches (Some "nowhere"))
  /\ (any (fun l => contains l (lower location)) T.location_specific_notes
        = true ->
      (exists pre key info post,
         location_specific_notes = pre ++ (key, info) :: post
         /\ contains key (lower location) = true
         /\ (forall e, e ∈ pre -> contains e.1 (lower location) = false)
         /\ info_parts topic info <> []
         /\ _get_location_specific_info location_specific_notes location topic
            = Some (join nl (info_parts topic info)))
      /\ forall keyword_matches,
           T.adjust keyword_matches (Some location)
           = T.adjust keyword_matches (Some "texas"))
  /\ any (fun l => contains l (lower "New York")) T.location_specific_notes
     = false.
Proof.
  assert (Hkeys : fst <$> location_specific_notes = T.location_specific_notes)
    by done.
  assert (Hrules : forall e, e ∈ location_specific_notes ->
            special_rules e.2 <> []).
  { intros e He. unfold location_specific_notes in He.
    repeat (apply elem_of_cons in He as [->|He]; [done|]). inversion He. }
  assert (Hnone : any (fun l => contains l (lower location))
                    T.location_specific_notes = false ->
            _get_location_specific_info location_specific_notes location topic
            = Some (generic_advice location)).
  { intros Hany. unfold _get_location_specific_info.
    rewrite location_loop_none; [done|]. by rewrite Hkeys. }
  assert (Hsome : any (fun l => contains l (lower location))
                    T.location_specific_notes = true ->
            exists pre key info post,
              location_specific_notes = pre ++ (key, info) :: post
              /\ contains key (lower location) = true
              /\ (forall e, e ∈ pre -> contains e.1 (lower location) = false)
              /\ info_parts topic info <> []
              /\ _get_location_specific_info location_specific_notes
                   location topic = Some (join nl (info_parts topic info))).
  { intros Hany. rewrite <- Hkeys in Hany.
    destruct (location_loop_some _ _ topic Hany)
      as (pre & key & info & post & Heq & Hc & Hpre & Hl).
    exists pre, key, info, post.
    assert (Hne : info_parts topic info <> []).
    { apply info_parts_nonempty, (Hrules (key, info)). rewrite Heq.
      apply elem_of_app. right. left. }
    repeat split; try done.
    unfold _get_location_specific_info. rewrite Hl. unfold answer.
    by destruct (info_parts topic info). }
  split; [done|]. split; [|split; [|split; [|by vm_compute]]].
  - destruct (any (fun l => contains l (lower location))
                T.location_specific_notes) eqn:Hany.
    + destruct (Hsome eq_refl) as (? & ? & ? & ? & _ & _ & _ & _ & ->). done.
    + by rewrite Hnone.
  - intros Hany. split; [by apply Hnone|].
    intros km c rest ->. unfold T.adjust. by rewrite Hany.
  - intros Hany. split; [by apply Hsome|].
    intros km. unfold T.adjust. destruct location as [|c rest].
    + by vm_compute in Hany.
    + by rewrite Hany.
Qed.

End TenancyLocationFacts.

(** ** issue_detection_agent.py: the report of the image analysis *)

Module IssueReport.
Module I := IssueDetectionAgent.

(** [int(x)] on a float: the integer part, toward zero; [None] stands for
    the [OverflowError] or [ValueError] raised on an infinity or a NaN. *)
Definition py_int (x : float) : option Z :=
  match Prim2SF x with
  | S754_zero _ => Some 0
  | S754_finite s m e =>
      let a := if 0 <=? e then Z.shiftl (Zpos m) e
               else Z.shiftr (Zpos m) (- e) in
      Some (if s then - a else a)
  | _ => None
  end.

(** [confidence_pct] and [add_confidence] of
    [_generate_issue_analysis_report]: [int(issue['confidence'] * 100)]. *)
Definition confidence_pct (issue : I.detected_issue) : option Z :=
  py_int (I.confidence issue * 100)%float.

End IssueReport.

Module IssueReportFacts.
Import PyStr PyStrFacts TopicFacts ConfidenceFacts ProcessFacts
  ImagePrimaryFacts IssueReport.

Lemma insert_desc_perm {A K} (key : A -> K) lt x sorted :
  insert_desc key lt x sorted ≡ₚ x :: sorted.
Proof.
  induction sorted as [|y sorted IH]; simpl; [done|].
  destruct (lt (key x) (key y)); [|done].
  rewrite IH. apply perm_swap.
Qed.

Lemma sort_reverse_perm {A K} (key : A -> K) lt xs :
  sort_reverse key lt xs ≡ₚ xs.
Proof.
  induction xs as [|x xs IH]; simpl; [done|].
  by rewrite insert_desc_perm, IH.
Qed.

Lemma detected_types_sublist tl db :
  I.type <$> omap (d_pos tl) db `sublist_of` od_keys db.
Proof.
  unfold od_keys. induction db as [|e db IH]; simpl; [done|].
  destruct (d_pos tl e) as [b|] eqn:Hb.
  - rewrite fmap_cons, (d_pos_type _ _ _ Hb). by apply sublist_skip.
  - by apply sublist_cons.
Qed.

Lemma issue_database_keys : NoDup (od_keys I.issue_database).
Proof. apply (bool_decide_unpack _). by vm_compute. Qed.

Lemma detected_fields tl db p :
  p ∈ omap (d_pos tl) db ->
  I.type p ∈ od_keys db
  /\ 0 < I.keywords_matched p
  /\ I.det_severity p = I._determine_severity tl ""
  /\ exists info, (I.type p, info) ∈ db
       /\ I.keywords_matched p = I.keyword_matches tl info.
Proof.
  intros (e & He & Hp)%list_elem_of_omap. unfold d_pos in Hp.
  rewrite Z.gtb_ltb in Hp.
  destruct (Z.ltb_spec 0 (I.keyword_matches tl e.2)); [|done].
  injection Hp as <-. simpl. destruct e as [k info]. simpl in *.
  split; [|split; [done|split; [done|eauto]]].
  unfold od_keys. apply list_elem_of_fmap. by exists (k, info).
Qed.

Lemma confidence_order p q :
  as_detected p -> as_detected q ->
  capped (I.keywords_matched q) <= capped (I.keywords_matched p) ->
  fle (I.confidence q) (I.confidence p).
Proof.
  destruct p as [t1 c1 s1 k1], q as [t2 c2 s2 k2].
  unfold as_detected, capped. simpl. intros [Hk1 ->] [Hk2 ->] Hle.
  count_cases k1; count_cases k2; try lia; by vm_compute.
Qed.

(** X16: over the program's table the image analysis reports at most three
    issues, of pairwise different types of the table; each has at least one
    keyword in the lower-cased description, a confidence between 0.7 and
    0.95, and the severity of the description, which is the same for all
    issues since it does not depend on the issue type; and no issue has a
    greater confidence than the first one. *)
Theorem image_analysis_report description :
  (length (I._simulate_image_analysis I.issue_database description) <= 3)%nat
  /\ NoDup (I.type <$> I._simulate_image_analysis I.issue_database description)
  /\ (forall p,
        p ∈ I._simulate_image_analysis I.issue_database description ->
        (exists info, (I.type p, info) ∈ I.issue_database
           /\ I.keywords_matched p = I.keyword_matches (lower description) info
           /\ 0 < I.keywords_matched p)
        /\ fle 0.7 (I.confidence p) /\ fle (I.confidence p) 0.95
        /\ I.det_severity p = I.classify description)
  /\ (forall p rest q,
        I._simulate_image_analysis I.issue_database description = p :: rest ->
        q ∈ rest -> fle (I.confidence q) (I.confidence p)).
Proof.
  assert (Hdet : forall p,
            p ∈ I._simulate_image_analysis I.issue_database description ->
            p ∈ omap (d_pos (lower description)) I.issue_database).
  { intros p Hp. rewrite <- detect_loop_omap.
    unfold I._simulate_image_analysis in Hp.
    by apply subseteq_take, sort_reverse_elem in Hp. }
  split; [|split; [|split]].
  - unfold I._simulate_image_analysis. rewrite length_take. lia.
  - pose proof (sublist_NoDup _ _ issue_database_keys
                  (detected_types_sublist (lower description) I.issue_database))
      as Hnd.
    unfold I._simulate_image_analysis. rewrite detect_loop_omap.
    rewrite <- (sort_reverse_perm I.confidence PrimFloat.ltb) in Hnd.
    eapply sublist_NoDup; [exact Hnd|].
    apply fmap_sublist, sublist_take.
  - intros p Hp. pose proof (simulate_as_detected _ _ Hp) as Has.
    apply Hdet, detected_fields in Hp as (_ & Hpos & Hsev & info & Hin & Hk).
    split; [eauto|].
    destruct p as [t c s k]. destruct Has as [Hb Hc]. simpl in *. subst c.
    split; [|split; [|done]]; count_cases k; by vm_compute.
  - intros p rest q Hs Hq.
    assert (Hp : p ∈ I._simulate_image_analysis I.issue_database description)
      by (rewrite Hs; left).
    assert (Hq' : q ∈ I._simulate_image_analysis I.issue_database description)
      by (rewrite Hs; by right).
    apply confidence_order; [by eapply simulate_as_detected..|].
    rewrite simulate_sorted in Hs.
    destruct (sort_reverse _ _ _) as [|y sorted] eqn:Hsort; [done|].
    injection Hs as -> _. apply sort_reverse_head in Hsort.
    apply (is_first_max_bound _ _ _ _ Hsort). by apply Hdet.
Qed.

(** X17: the percentage that the report shows for an issue of the image
    analysis over the program's table is exact: 70, 80 or 90 for one, two or
    three keywords and 95 from four keywords on; the conversion to an
    integer never fails and never loses a percent to rounding. *)
Theorem confidence_pct_exact description p :
  p ∈ I._simulate_image_analysis I.issue_database description ->
  confidence_pct p = Some (Z.min 95 (60 + 10 * I.keywords_matched p)).
Proof.
  intros Has%simulate_as_detected. destruct p as [t c s k].
  destruct Has as [Hk Hc]. simpl in *. subst c. unfold confidence_pct. simpl.
  count_cases k; by vm_compute.
Qed.

(** X17 on a description with two keywords of water damage. *)
Lemma confidence_pct_exact_witness :
  confidence_pct
    {| I.type := "water_damage"; I.confidence := I.detection_confidence 2;
       I.det_severity := I.Minor; I.keywords_matched := 2 |}
  = Some 80.
Proof.
  apply (confidence_pct_exact "a wet leak here"
           {| I.type := "water_damage";
              I.confidence := I.detection_confidence 2;
              I.det_severity := I.Minor; I.keywords_matched := 2 |}).
  vm_compute. left.
Defined.

End IssueReportFacts.
